(** * Reactotron: the server command line and the custom-command panel

    A shallow embedding of two collaborators of the Reactotron server:

    - [Cli]: [lib/reactotron-core-server/src/cli.ts], the process entry
      point ([parseArgs], [printHelp], [run] and the module-level
      [run().catch(...)]);
    - [CustomCommands]: the custom-command panel of the desktop
      application ([customCommandItemReducer], the [useReducer]
      initialiser of [CustomCommandItem], the search filter and the
      render keys of [CustomCommands]).

    JavaScript strings are modelled as [string] (byte sequences; the
    source only compares, concatenates and searches them), JavaScript
    objects used as dictionaries as [gmap string _], and integral
    numbers as [Z] (exact for the safe-integer range of a double). *)

From Stdlib Require Import ZArith String Ascii List Lia.
From stdpp Require Import base option list gmap strings pretty.

#[local] Set Warnings "-clear-no-such-hyp,-cannot-remove-as-expected".

Local Open Scope Z_scope.

(** ** Console, exit and exceptions: the process monad *)

Module Proc.

(** What the process does to the outside world, in program order. *)
Inductive Effect : Type :=
| ConsoleLog (line : string)            (* console.log: a line on stdout *)
| ConsoleError (line : string)          (* console.error: a line on stderr *)
| CreateServer (port : Z) (wss : option (gmap string string))
| ServerStart                           (* server.start() is entered *)
| ServerStop.                           (* server.stop() is entered *)

(** How a computation ends: with a value, by [process.exit(code)], or
    with a thrown exception. *)
Inductive Outcome (A : Type) : Type :=
| Return (a : A)
| Exit (code : Z)
| Throw (error : string).
Arguments Return {A} a.
Arguments Exit {A} code.
Arguments Throw {A} error.

Definition t (A : Type) : Type := (list Effect * Outcome A)%type.

Definition ret {A} (a : A) : t A := ([], Return a).

Definition bind {A B} (m : t A) (k : A → t B) : t B :=
  match m with
  | (tr, Return a) => let '(tr', o) := k a in (tr ++ tr', o)
  | (tr, Exit c) => (tr, Exit c)
  | (tr, Throw e) => (tr, Throw e)
  end.

Definition effect (e : Effect) : t unit := ([e], Return tt).
Definition exit {A} (code : Z) : t A := ([], Exit code).
Definition throw {A} (error : string) : t A := ([], Throw error).

(** [promise.catch(handler)]: only a thrown exception reaches the
    handler; [process.exit] ends the process before any handler. *)
Definition catch {A} (m : t A) (handler : string → t A) : t A :=
  match m with
  | (tr, Throw e) => let '(tr', o) := handler e in (tr ++ tr', o)
  | _ => m
  end.

Definition trace {A} (m : t A) : list Effect := fst m.
Definition outcome {A} (m : t A) : Outcome A := snd m.

(** The lines written to stderr, in order. *)
Definition stderr (tr : list Effect) : list string :=
  omap (λ e, match e with ConsoleError l => Some l | _ => None end) tr.

End Proc.

Notation "x ←; m ;; k" := (Proc.bind m (λ x, k))
  (at level 100, m at next level, right associativity, only parsing).
Notation "m ;;; k" := (Proc.bind m (λ _, k))
  (at level 100, right associativity, only parsing).

(** ** The command line *)

Module Cli.
Import Proc.

Definition console_log (line : string) : Proc.t unit := effect (ConsoleLog line).
Definition console_error (line : string) : Proc.t unit := effect (ConsoleError line).

(** *** [parseInt(s, 10)] *)

Fixpoint trimStart (s : string) : string :=
  match s with
  | String c s' => if Ascii.is_space c then trimStart s' else s
  | EmptyString => s
  end.

Definition digit (c : ascii) : option Z := Z.of_nat <$> Ascii.is_nat c.

(** Reads the longest prefix of decimal digits; [None] when it is empty. *)
Fixpoint digits (acc : option Z) (s : string) : option Z :=
  match s with
  | String c s' =>
      match digit c with
      | Some d => digits (Some (10 * default 0 acc + d)) s'
      | None => acc
      end
  | EmptyString => acc
  end.

(** [parseInt(s, 10)]: leading white space is skipped, one sign is
    accepted, then the longest run of digits is read and whatever
    follows is ignored; [None] stands for [NaN].  The result is the
    exact integer, which is what a double holds up to 2^53; of the
    white space of JavaScript, the characters of ASCII are skipped. *)
Definition parseInt (s : string) : option Z :=
  match trimStart s with
  | String "-" s' => Z.opp <$> digits None s'
  | String "+" s' => digits None s'
  | s' => digits None s'
  end.

(** *** [parseArgs] *)

Record ParsedArgs : Type := mkParsedArgs {
  port : Z;
  wss : option (gmap string string);
  help : bool
}.

Definition set_port (p : Z) (r : ParsedArgs) : ParsedArgs :=
  {| port := p; wss := wss r; help := help r |}.
Definition set_help (r : ParsedArgs) : ParsedArgs :=
  {| port := port r; wss := wss r; help := true |}.
Definition set_wss (w : gmap string string) (r : ParsedArgs) : ParsedArgs :=
  {| port := port r; wss := Some w; help := help r |}.

(** The [case] labels of the [switch]. *)
Inductive Flag : Type :=
| FHelp | FPort | FWssPfx | FWssCert | FWssKey | FWssPassphrase | FUnknown.

Definition classify (arg : string) : Flag :=
  if decide (arg = "--help") then FHelp
  else if decide (arg = "-h") then FHelp
  else if decide (arg = "--port") then FPort
  else if decide (arg = "-p") then FPort
  else if decide (arg = "--wss-pfx") then FWssPfx
  else if decide (arg = "--wss-cert") then FWssCert
  else if decide (arg = "--wss-key") then FWssKey
  else if decide (arg = "--wss-passphrase") then FWssPassphrase
  else FUnknown.

(** [console.error(msg); process.exit(1)] *)
Definition die {A} (msg : string) : Proc.t A :=
  console_error msg ;;; exit 1.

(** The [for] loop of [parseArgs], on the arguments from index [i] on;
    [args[++i]] takes the head of the rest and the loop goes on after it. *)
Fixpoint parseLoop (args : list string) (result : ParsedArgs)
    (wssOptions : gmap string string) : Proc.t (ParsedArgs * gmap string string) :=
  match args with
  | [] => ret (result, wssOptions)
  | arg :: rest =>
      match classify arg with
      | FHelp => parseLoop rest (set_help result) wssOptions
      | FPort =>
          match rest with
          | v :: rest' =>
              match parseInt v with
              | Some p => parseLoop rest' (set_port p result) wssOptions
              | None => die ("Invalid port: " +:+ v)
              end
          | [] => die "--port requires a value"
          end
      | FWssPfx =>
          match rest with
          | v :: rest' => parseLoop rest' result (<["pathToPfx" := v]> wssOptions)
          | [] => die "--wss-pfx requires a path"
          end
      | FWssCert =>
          match rest with
          | v :: rest' => parseLoop rest' result (<["pathToCert" := v]> wssOptions)
          | [] => die "--wss-cert requires a path"
          end
      | FWssKey =>
          match rest with
          | v :: rest' => parseLoop rest' result (<["pathToKey" := v]> wssOptions)
          | [] => die "--wss-key requires a path"
          end
      | FWssPassphrase =>
          match rest with
          | v :: rest' => parseLoop rest' result (<["passphrase" := v]> wssOptions)
          | [] => die "--wss-passphrase requires a value"
          end
      | FUnknown => die ("Unknown argument: " +:+ arg)
      end
  end.

Definition parseArgs (args : list string) : Proc.t ParsedArgs :=
  bind (parseLoop args {| port := 9090; wss := None; help := false |} ∅)
    (λ '(result, wssOptions),
      (* Only add wss if at least one wss option was provided *)
      if bool_decide (0 < size wssOptions)%nat
      then ret (set_wss wssOptions result)
      else ret result).

(** *** [printHelp] *)

Definition newline : string := String "010" "".

Definition unlines (ls : list string) : string :=
  foldr (λ l acc, l +:+ newline +:+ acc) "" ls.

(** The template literal of [printHelp]: it opens and closes with a
    line break. *)
Definition usage : string :=
  unlines [
    "";
    "Reactotron Server CLI";
    "";
    "Usage:";
    "  reactotron-core-server [options]";
    "";
    "Options:";
    "  -p, --port <number>              Port to listen on (default: 9090)";
    "  -h, --help                       Show this help message";
    "";
    "TLS/WSS Options:";
    "  --wss-pfx <path>                 Path to PFX certificate file";
    "  --wss-cert <path>                Path to certificate file";
    "  --wss-key <path>                 Path to key file";
    "  --wss-passphrase <passphrase>    Passphrase for certificate";
    "";
    "Examples:";
    "  reactotron-core-server --port 9090";
    "  reactotron-core-server --port 9090 --wss-pfx ./server.pfx --wss-passphrase mypass";
    "  reactotron-core-server --port 9090 --wss-cert ./cert.pem --wss-key ./key.pem"
  ].

Definition printHelp : Proc.t unit := console_log usage.

(** *** The server, as [run] sees it

    [createServer] and the server class are not part of this file:
    [run] only registers listeners on the server, starts it and stops
    it.  What the server does in return (the events it emits, the
    exceptions it throws) is the environment of the process. *)

Record Connection : Type := { name : option string; address : string }.
Record Command : Type := { type : string }.

Inductive ServerEvent : Type :=
| Start
| PortUnavailable (unavailablePort : Z)
| Connect
| ConnectionEstablished (conn : Connection)
| Disconnect (conn : Connection)
| CommandReceived (cmd : Command)
| Stop.

(** The name under which the emitter dispatches each event. *)
Definition eventName (ev : ServerEvent) : string :=
  match ev with
  | Start => "start"
  | PortUnavailable _ => "portUnavailable"
  | Connect => "connect"
  | ConnectionEstablished _ => "connectionEstablished"
  | Disconnect _ => "disconnect"
  | CommandReceived _ => "command"
  | Stop => "stop"
  end.

Inductive Signal : Type := SIGINT | SIGTERM.
Global Instance Signal_eq_dec : EqDecision Signal.
Proof. solve_decision. Defined.

(** After [run] has returned, the process reacts to what the server
    emits and to signals; [server.stop()], called by the signal
    handler, may emit events before it returns. *)
Inductive ProcessEvent : Type :=
| Emitted (ev : ServerEvent)
| Signalled (sig : Signal) (stopEmits : list ServerEvent).

Record Env : Type := {
  createServerThrows : option string;  (* [createServer(options)] throws *)
  startEmits : list ServerEvent;       (* emitted inside [server.start()] *)
  startThrows : option string;         (* [server.start()] throws *)
  later : list ProcessEvent            (* after [run()] has returned *)
}.

(** The emitter: listeners by event name, in registration order. *)
Record Server : Type := {
  listeners : list (string * (ServerEvent → Proc.t unit))
}.

Definition on (event : string) (listener : ServerEvent → Proc.t unit)
    (server : Server) : Server :=
  {| listeners := listeners server ++ [(event, listener)] |}.

Definition emit (server : Server) (ev : ServerEvent) : Proc.t unit :=
  foldr (λ '(event, listener) k,
           if decide (event = eventName ev) then listener ev ;;; k else k)
        (ret tt) (listeners server).

Fixpoint emitAll (server : Server) (evs : list ServerEvent) : Proc.t unit :=
  match evs with
  | [] => ret tt
  | ev :: evs' => emit server ev ;;; emitAll server evs'
  end.

Definition createServer (env : Env) (port : Z) (wss : option (gmap string string))
    : Proc.t Server :=
  effect (CreateServer port wss) ;;;
  match createServerThrows env with
  | Some error => throw error
  | None => ret {| listeners := [] |}
  end.

Definition start (env : Env) (server : Server) : Proc.t unit :=
  effect ServerStart ;;;
  emitAll server (startEmits env) ;;;
  match startThrows env with
  | Some error => throw error
  | None => ret tt
  end.

Definition stop (server : Server) (stopEmits : list ServerEvent) : Proc.t unit :=
  effect ServerStop ;;; emitAll server stopEmits.

(** [x || "Unknown"] on an optional string: [undefined] and [""] are falsy. *)
Definition orElse (x : option string) (d : string) : string :=
  match x with
  | Some s => if decide (s = "") then d else s
  | None => d
  end.

(** *** [run] *)

(** The process once [run] has returned: the server with its listeners
    and the signals that have a handler. *)
Record Running : Type := {
  server : Server;
  signals : list (Signal * (list ServerEvent → Proc.t unit))
}.

(** The listeners of [run], one per [server.on]; the emitter gives each
    listener the payload of its own event. *)
Definition onStart (port : Z) (wss : option (gmap string string))
    (ev : ServerEvent) : Proc.t unit :=
  console_log ("✓ Reactotron server listening on port " +:+ pretty port) ;;;
  if wss is Some _ then console_log "✓ TLS/WSS enabled" else ret tt.

Definition onPortUnavailable (ev : ServerEvent) : Proc.t unit :=
  match ev with
  | PortUnavailable unavailablePort =>
      console_error ("✗ Port " +:+ pretty unavailablePort +:+ " is already in use") ;;;
      exit 1
  | _ => ret tt
  end.

Definition onConnect (ev : ServerEvent) : Proc.t unit :=
  console_log "→ Client connecting...".

Definition onConnectionEstablished (ev : ServerEvent) : Proc.t unit :=
  match ev with
  | ConnectionEstablished conn =>
      console_log ("✓ Connection established: " +:+ orElse (name conn) "Unknown"
                   +:+ " (" +:+ address conn +:+ ")")
  | _ => ret tt
  end.

Definition onDisconnect (ev : ServerEvent) : Proc.t unit :=
  match ev with
  | Disconnect conn =>
      console_log ("✗ Client disconnected: " +:+ orElse (name conn) "Unknown")
  | _ => ret tt
  end.

Definition onCommand (ev : ServerEvent) : Proc.t unit :=
  match ev with
  | CommandReceived cmd =>
      (* Log commands in a compact format *)
      if decide (type cmd ≠ "client.intro")
      then console_log ("  " +:+ type cmd)
      else ret tt
  | _ => ret tt
  end.

Definition onStop (ev : ServerEvent) : Proc.t unit :=
  console_log "✓ Reactotron server stopped".

(** Handle graceful shutdown *)
Definition shutdown (server : Server) (stopEmits : list ServerEvent) : Proc.t unit :=
  console_log (newline +:+ "→ Shutting down...") ;;;
  stop server stopEmits ;;;
  exit 0.

Definition run (args : list string) (env : Env) : Proc.t Running :=
  parsed ←; parseArgs args ;;
  let port := port parsed in
  let wss := wss parsed in
  if help parsed then
    printHelp ;;; exit 0
  else
    server ←; createServer env port wss ;;
    let server := on "start" (onStart port wss) server in
    let server := on "portUnavailable" onPortUnavailable server in
    let server := on "connect" onConnect server in
    let server := on "connectionEstablished" onConnectionEstablished server in
    let server := on "disconnect" onDisconnect server in
    let server := on "command" onCommand server in
    let server := on "stop" onStop server in
    let signals := [(SIGINT, shutdown server); (SIGTERM, shutdown server)] in
    start env server ;;;
    ret {| server := server; signals := signals |}.

(** What the process does with one event once [run] has returned. *)
Definition react (rt : Running) (pe : ProcessEvent) : Proc.t unit :=
  match pe with
  | Emitted ev => emit (server rt) ev
  | Signalled sig stopEmits =>
      foldr (λ '(s, handler) k,
               if decide (s = sig) then handler stopEmits ;;; k else k)
            (ret tt) (signals rt)
  end.

Fixpoint eventLoop (rt : Running) (pes : list ProcessEvent) : Proc.t unit :=
  match pes with
  | [] => ret tt
  | pe :: pes' => react rt pe ;;; eventLoop rt pes'
  end.

(** The module run as a program: [run().catch(...)], then the event
    loop.  [Return tt] means that the process is still running when
    the events of the environment are used up. *)
Definition main (args : list string) (env : Env) : Proc.t unit :=
  rt ←; catch (run args env)
          (λ error, console_error ("Error starting server: " +:+ error) ;;; exit 1) ;;
  eventLoop rt (later env).

(** *** Vocabulary of the statements about the command line *)

(** The arguments that the loop reads at index [i] as options: every
    argument but the values taken by [args[++i]]. *)
Fixpoint flagTokens (args : list string) : list string :=
  match args with
  | [] => []
  | arg :: rest =>
      arg :: match classify arg with
             | FHelp | FUnknown => flagTokens rest
             | _ => match rest with
                    | _ :: rest' => flagTokens rest'
                    | [] => []
                    end
             end
  end.

(** The field of the TLS options that an option writes. *)
Definition fieldOf (f : Flag) : option string :=
  match f with
  | FWssPfx => Some "pathToPfx"
  | FWssCert => Some "pathToCert"
  | FWssKey => Some "pathToKey"
  | FWssPassphrase => Some "passphrase"
  | _ => None
  end.

(** The fields written by a command line. *)
Definition fieldsOf (args : list string) : gset string :=
  list_to_set (omap (λ arg, fieldOf (classify arg)) (flagTokens args)).

(** The fields that the TLS options can hold. *)
Definition wssFields : gset string :=
  {[ "pathToPfx"; "pathToCert"; "pathToKey"; "passphrase" ]}.

(** The three shapes that the specification gives to the TLS
    configuration: none, a PFX bundle with an optional passphrase, a
    certificate and key pair. *)
Definition specTlsShape (tls : option (gmap string string)) : bool :=
  match tls with
  | None => true
  | Some m =>
      bool_decide (dom m = {[ "pathToPfx" ]})
      || bool_decide (dom m = {[ "pathToPfx"; "passphrase" ]})
      || bool_decide (dom m = {[ "pathToCert"; "pathToKey" ]})
  end.

(** The command line that gives each TLS option at most once. *)
Definition wssArgs (pfx cert key passphrase : option string) : list string :=
  from_option (λ v, ["--wss-pfx"; v]) [] pfx
  ++ from_option (λ v, ["--wss-cert"; v]) [] cert
  ++ from_option (λ v, ["--wss-key"; v]) [] key
  ++ from_option (λ v, ["--wss-passphrase"; v]) [] passphrase.

(** The object that holds exactly the given fields. *)
Definition wssObject (pfx cert key passphrase : option string) : gmap string string :=
  from_option (λ v, {[ "pathToPfx" := v ]}) ∅ pfx
  ∪ from_option (λ v, {[ "pathToCert" := v ]}) ∅ cert
  ∪ from_option (λ v, {[ "pathToKey" := v ]}) ∅ key
  ∪ from_option (λ v, {[ "passphrase" := v ]}) ∅ passphrase.

(** The first [portUnavailable] among the events given to the listeners. *)
Fixpoint firstUnavailable (evs : list ServerEvent) : option Z :=
  match evs with
  | [] => None
  | PortUnavailable p :: _ => Some p
  | _ :: evs' => firstUnavailable evs'
  end.

(** The events that reach the listeners after [run] has returned: the
    emitted ones up to the first signal, then those of [server.stop()]. *)
Fixpoint delivered (pes : list ProcessEvent) : list ServerEvent :=
  match pes with
  | [] => []
  | Emitted ev :: pes' => ev :: delivered pes'
  | Signalled _ stopEmits :: _ => stopEmits
  end.

(** Why the process ends with a failure. *)
Inductive Failure : Type :=
| ArgumentError (message : string)   (* [parseArgs] rejects the command line *)
| StartupError (error : string)      (* [createServer] or [start] throws *)
| PortInUse (port : Z).              (* the server emits [portUnavailable] *)

Definition describe (f : Failure) : string :=
  match f with
  | ArgumentError message => message
  | StartupError error => "Error starting server: " +:+ error
  | PortInUse port => "✗ Port " +:+ pretty port +:+ " is already in use"
  end.

(** The failure that an environment holds for a started server, if any. *)
Definition startupFailure (env : Env) : option Failure :=
  match createServerThrows env with
  | Some error => Some (StartupError error)
  | None =>
      match firstUnavailable (startEmits env) with
      | Some p => Some (PortInUse p)
      | None =>
          match startThrows env with
          | Some error => Some (StartupError error)
          | None => PortInUse <$> firstUnavailable (delivered (later env))
          end
      end
  end.

Definition failure (args : list string) (env : Env) : option Failure :=
  match parseArgs args with
  | (tr, Return parsed) => if help parsed then None else startupFailure env
  | (tr, _) => ArgumentError <$> last (stderr tr)
  end.

(** An environment in which nothing fails and nothing happens. *)
Definition quiet : Env :=
  {| createServerThrows := None; startEmits := [];
     startThrows := None; later := [] |}.

(** A command line for a PFX bundle with its passphrase, and what
    [parseArgs] makes of it. *)
Definition pfxArgs : list string :=
  ["--wss-pfx"; "./server.pfx"; "--wss-passphrase"; "mypass"].

Definition pfxParsed : ParsedArgs :=
  {| port := 9090; help := false;
     wss := Some {[ "pathToPfx" := "./server.pfx"; "passphrase" := "mypass" ]} |}.

(** The lifecycle events of the specification, and the names under
    which the server emits them. *)
Inductive LifecycleEvent : Type :=
| listening | portUnavailable | connecting | connectionEstablished
| disconnected | command | stopped.

Definition implName (e : LifecycleEvent) : string :=
  match e with
  | listening => "start"
  | portUnavailable => "portUnavailable"
  | connecting => "connect"
  | connectionEstablished => "connectionEstablished"
  | disconnected => "disconnect"
  | command => "command"
  | stopped => "stop"
  end.

(** *** Vocabulary of further statements about the command line *)

(** The message for an option that is the last argument and lacks its
    value, as the [else] branches of the loop write it. *)
Definition missingValue (f : Flag) : option string :=
  match f with
  | FPort => Some "--port requires a value"
  | FWssPfx => Some "--wss-pfx requires a path"
  | FWssCert => Some "--wss-cert requires a path"
  | FWssKey => Some "--wss-key requires a path"
  | FWssPassphrase => Some "--wss-passphrase requires a value"
  | FHelp | FUnknown => None
  end.

Definition startsWithDigit (s : string) : bool :=
  match s with
  | String c _ => if digit c is Some _ then true else false
  | EmptyString => false
  end.

(** The calls that the process makes on the server, as opposed to what
    it writes on the console. *)
Definition isCall (e : Effect) : bool :=
  match e with
  | CreateServer _ _ | ServerStart | ServerStop => true
  | ConsoleLog _ | ConsoleError _ => false
  end.

Definition calls (tr : list Effect) : list Effect := List.filter isCall tr.

(** An environment in which the server starts and reports it. *)
Definition listeningEnv : Env :=
  {| createServerThrows := None; startEmits := [];
     startThrows := None; later := [Emitted Start] |}.

End Cli.

(** ** The custom-command panel *)

Module CustomCommands.

(** *** Objects and references

    A reducer state is a JavaScript object, held by reference: two
    references can name one object, so the objects live in a heap and
    a state is a reference into it.  The object is a plain object used
    as a dictionary from argument names to the text typed for them; a
    [gmap string string] holds its own data properties.  What it
    inherits from [Object.prototype] shows in two places: reading a
    name that is no own property ([getProp]) and writing the name
    [__proto__] ([assign], [draft_set]). *)

Definition ref : Type := nat.
Abbreviation heap := (gmap ref (gmap string string)).

(** A new object: a reference that the heap does not hold yet. *)
Definition alloc (h : heap) (o : gmap string string) : heap * ref :=
  let r := fresh (dom h) in (<[r := o]> h, r).

(** What [o[n]] gives: the text of an own property, or else what
    [Object.prototype] holds under the name ([undefined] for most
    names, the prototype itself for [__proto__]). *)
Inductive Value : Type :=
| Text (s : string)
| Inherited (n : string).

Definition getProp (o : gmap string string) (n : string) : Value :=
  match o !! n with
  | Some s => Text s
  | None => Inherited n
  end.

(** [o[n] = v] on a plain object, for a text [v].  An own property is
    written or created, with one exception: when [o] has no own
    property [__proto__], that name reaches the accessor of
    [Object.prototype], whose setter ignores a value that is no
    object, and nothing is written. *)
Definition assign (n v : string) (o : gmap string string) : gmap string string :=
  if decide (n = "__proto__" ∧ o !! n = None) then o else <[n := v]> o.

(** *** [produce] of immer

    [produce(base, recipe)] hands the recipe a draft of [base].  A
    write to the draft goes to a copy of the base, made at the first
    write that changes a value; the base object is never written.
    The result is the copy, as a new object, when the draft was
    modified, and [base] itself when it was not. *)
Record Draft : Type := {
  base_ : gmap string string;
  copy_ : gmap string string;
  modified_ : bool
}.

Definition createDraft (base : gmap string string) : Draft :=
  {| base_ := base; copy_ := base; modified_ := false |}.

(** [draft[prop] = value], for a text [value].  A name that the
    prototype holds as an accessor is given to its setter: for
    [__proto__] the setter ignores a text, and the draft is left as it
    is, unmodified. *)
Definition draft_set (prop value : string) (d : Draft) : Draft :=
  if decide (prop = "__proto__") then d
  else if bool_decide (copy_ d !! prop = Some value) then d
  else {| base_ := base_ d; copy_ := <[prop := value]> (copy_ d); modified_ := true |}.

(** [None]: [base] is not a reference to an object. *)
Definition produce (h : heap) (base : ref) (recipe : Draft → Draft)
    : option (heap * ref) :=
  o ← h !! base;
  let d := recipe (createDraft o) in
  Some (if modified_ d then alloc h (copy_ d) else (h, base)).

(** *** [customCommandItemReducer] *)

Record Payload : Type := { argName : string; value : string }.

(** An action; the reducer reads [payload] only for [UPDATE_ARG]. *)
Record Action : Type := { type : string; payload : option Payload }.

Definition UPDATE_ARG (n v : string) : Action :=
  {| type := "UPDATE_ARG"; payload := Some {| argName := n; value := v |} |}.

(** [None]: the reducer throws (no payload, or no object to draft). *)
Definition customCommandItemReducer (h : heap) (state : ref) (action : Action)
    : option (heap * ref) :=
  if decide (type action = "UPDATE_ARG") then
    p ← payload action;
    produce h state (draft_set (argName p) (value p))
  else Some (h, state).

(** *** [CustomCommandItem] *)

Record Arg : Type := { name : string }.

(** Modelled from the spec: the [CustomCommand] type is declared by
    reactotron-core-ui, outside these sources.  Its fields are those
    of the data model: [clientId], the identifier reported by the
    client; [id], the identifier that the declaring client gives to
    the command; [command]; the optional [title], [description] and
    [args].  The type of [id] is left open: it is the parameter [Id],
    and where the text of an identifier matters, the function that a
    template literal applies to it is a parameter too. *)
Record CustomCommand (Id : Type) : Type := {
  clientId : string;
  id : Id;
  command : string;
  title : option string;
  description : option string;
  args : option (list Arg)
}.
Arguments clientId {Id} _.
Arguments id {Id} _.
Arguments command {Id} _.
Arguments title {Id} _.
Arguments description {Id} _.
Arguments args {Id} _.

(** The initialiser given to [useReducer]. *)
Definition initArgMap (args : option (list Arg)) : gmap string string :=
  match args with
  | None => ∅
  | Some args => foldl (λ argMap arg, assign (name arg) "" argMap) ∅ args
  end.

(** Mounting the item: [useReducer] keeps the object of the initialiser. *)
Definition mount {Id} (h : heap) (customCommand : CustomCommand Id) : heap * ref :=
  alloc h (initArgMap (args customCommand)).

(** The [dispatch] calls of the operator, one after the other. *)
Fixpoint dispatchAll (h : heap) (state : ref) (actions : list Action)
    : option (heap * ref) :=
  match actions with
  | [] => Some (h, state)
  | action :: actions' =>
      '(h', state') ← customCommandItemReducer h state action;
      dispatchAll h' state' actions'
  end.

(** The click on [SendButton]: [sendCustomCommand(customCommand.command, state)]. *)
Definition send {Id} (customCommand : CustomCommand Id) (h : heap) (state : ref)
    : option (string * gmap string string) :=
  o ← h !! state; Some (command customCommand, o).

(** *** [CustomCommands] *)

(** [toLowerCase] on texts of ASCII characters: the letters A to Z
    are lowered, every other byte is left as it is.  On other texts
    JavaScript applies the case rules of Unicode, which this function
    does not have; the statements about the search say so. *)
Definition lowerChar (c : ascii) : ascii :=
  let n := N_of_ascii c in
  if bool_decide (65 ≤ n ≤ 90)%N then ascii_of_N (n + 32) else c.

Fixpoint toLowerCase (s : string) : string :=
  match s with
  | EmptyString => EmptyString
  | String c s' => String (lowerChar c) (toLowerCase s')
  end.

(** [hay.indexOf(needle)]: the first index at which [needle] starts,
    [-1] when there is none. *)
Fixpoint indexOfFrom (i : Z) (hay needle : string) : Z :=
  if String.prefix needle hay then i
  else match hay with
       | EmptyString => -1
       | String _ hay' => indexOfFrom (i + 1) hay' needle
       end.

Definition indexOf (hay needle : string) : Z := indexOfFrom 0 hay needle.

(** [x || ""] on an optional string. *)
Definition orEmpty (x : option string) : string :=
  match x with
  | Some s => if decide (s = "") then "" else s
  | None => ""
  end.

Definition filteredCustomCommands {Id} (search : string)
    (customCommands : list (CustomCommand Id)) : list (CustomCommand Id) :=
  let lowerSearch := toLowerCase search in
  if decide (search ≠ "") then
    List.filter
      (λ cc,
         bool_decide (indexOf (toLowerCase (command cc)) lowerSearch > -1)
         || bool_decide (indexOf (toLowerCase (orEmpty (title cc))) lowerSearch > -1)
         || bool_decide (indexOf (toLowerCase (orEmpty (description cc))) lowerSearch > -1))
      customCommands
  else customCommands.

(** The [key] of a rendered item: [`${cc.clientId}-${cc.id}`], where
    [idText] is what the template literal makes of an identifier. *)
Definition renderKey {Id} (idText : Id → string) (cc : CustomCommand Id) : string :=
  clientId cc +:+ "-" +:+ idText (id cc).

(** The keys of the items rendered for a search. *)
Definition renderedKeys {Id} (idText : Id → string) (search : string)
    (customCommands : list (CustomCommand Id)) : list string :=
  renderKey idText <$> filteredCustomCommands search customCommands.

(** *** The view of [CustomCommandItem] *)

(** [x || d] on an optional string. *)
Definition orDefault (x : option string) (d : string) : string :=
  match x with
  | Some s => if decide (s = "") then d else s
  | None => d
  end.

(** What an item shows: its [Title], its [Description] and, when the
    command has arguments, one [ArgInput] for each of them in the
    order of declaration, with its name for a placeholder and
    [state[arg.name]] for a value. *)
Record ItemView : Type := {
  heading : string;
  blurb : string;
  argInputs : option (list (string * Value))
}.

Definition renderItem {Id} (customCommand : CustomCommand Id)
    (state : gmap string string) : ItemView :=
  {| heading := orDefault (title customCommand) (command customCommand);
     blurb := orDefault (description customCommand) "No Description Provided";
     argInputs :=
       match args customCommand with
       | Some l =>
           if bool_decide (0 < length l)%nat
           then Some ((λ arg, (name arg, getProp state (name arg))) <$> l)
           else None
       | None => None
       end |}.

(** *** Vocabulary of the statements about the panel *)

(** A text of ASCII characters. *)
Fixpoint isAscii (s : string) : bool :=
  match s with
  | EmptyString => true
  | String c s' => bool_decide (N_of_ascii c < 128)%N && isAscii s'
  end.

(** The texts of a command that the search looks at are ASCII. *)
Definition asciiTexts {Id} (cc : CustomCommand Id) : bool :=
  isAscii (command cc) && isAscii (default "" (title cc))
  && isAscii (default "" (description cc)).







(** The names of the declared arguments. *)
Definition declared {Id} (cc : CustomCommand Id) : list string :=
  name <$> default [] (args cc).

(** Whether a character occurs in a string. *)
Fixpoint occurs (c : ascii) (s : string) : bool :=
  match s with
  | EmptyString => false
  | String c' s' => bool_decide (c = c') || occurs c s'
  end.

(** The text last typed for an argument, empty if none was. *)
Definition typed (edits : list (string * string)) (n : string) : string :=
  foldl (λ text e, if decide (e.1 = n) then e.2 else text) "" edits.

(** What a write to a draft leaves in the object that [produce] gives. *)
Definition draftAssign (n v : string) (o : gmap string string) : gmap string string :=
  if decide (n = "__proto__") then o else <[n := v]> o.

(** The argument map after the edits, each written over the last. *)
Definition edited (m : gmap string string) (edits : list (string * string))
    : gmap string string :=
  foldl (λ acc e, draftAssign e.1 e.2 acc) m edits.

(** *** Commands for the examples *)

(** Two clients that declare a command of the same name under the
    same number. *)
Definition resetOfPhone : CustomCommand N :=
  {| clientId := "phone-1"; id := 1%N; command := "reset";
     title := Some "Reset"; description := None; args := None |}.

Definition resetOfTablet : CustomCommand N :=
  {| clientId := "tablet-2"; id := 1%N; command := "reset";
     title := None; description := Some "Resets the store";
     args := Some [{| name := "scope" |}] |}.



(** A command that declares an argument of the name [__proto__]. *)
Definition protoCommand : CustomCommand N :=
  {| clientId := "phone-1"; id := 2%N; command := "setPrototype";
     title := None; description := None;
     args := Some [{| name := "__proto__" |}] |}.

End CustomCommands.

(** * Properties of the command line *)

Module CliSpec.
Import Proc Cli.

(** ** The process monad *)

Lemma bind_ret_l {A B} (a : A) (k : A → Proc.t B) : bind (ret a) k = k a.
Proof. unfold bind, ret. by destruct (k a). Qed.

Lemma bind_ret_tt (m : Proc.t unit) : bind m (λ _, ret tt) = m.
Proof. destruct m as [tr [[]| |]]; simpl; by rewrite ?app_nil_r. Qed.

Lemma bind_assoc {A B C} (m : Proc.t A) (f : A → Proc.t B) (g : B → Proc.t C) :
  bind (bind m f) g = bind m (λ a, bind (f a) g).
Proof.
  destruct m as [tr [a| |]]; simpl; try done.
  destruct (f a) as [tr1 [b| |]]; simpl; try done.
  destruct (g b) as [tr2 o]. by rewrite app_assoc.
Qed.

Lemma bind_return {A B} tr (a : A) (k : A → Proc.t B) :
  bind (tr, Return a) k = (tr ++ trace (k a), outcome (k a)).
Proof. simpl. by destruct (k a). Qed.

(** ** The loop of [parseArgs] *)

Lemma args_ind (P : list string → Prop) :
  P [] →
  (∀ a rest, (∀ l, (length l ≤ length rest)%nat → P l) → P (a :: rest)) →
  ∀ l, P l.
Proof.
  intros Hnil Hcons.
  cut (∀ n l, (length l ≤ n)%nat → P l); [by eauto|].
  induction n as [|n IH]; intros [|a rest] Hlen; simpl in *; try done; try lia.
  apply Hcons. intros l Hl. apply IH. lia.
Qed.

(** The runs of the loop that reach its end, as a relation: the
    arguments read, the state before and the state after. *)
Inductive Parses : list string → ParsedArgs → gmap string string →
                   ParsedArgs → gmap string string → Prop :=
| Parses_nil r w :
    Parses [] r w r w
| Parses_help a rest r w r' w' :
    classify a = FHelp →
    Parses rest (set_help r) w r' w' →
    Parses (a :: rest) r w r' w'
| Parses_port a v p rest r w r' w' :
    classify a = FPort →
    parseInt v = Some p →
    Parses rest (set_port p r) w r' w' →
    Parses (a :: v :: rest) r w r' w'
| Parses_wss a v k rest r w r' w' :
    fieldOf (classify a) = Some k →
    Parses rest r (<[k := v]> w) r' w' →
    Parses (a :: v :: rest) r w r' w'.

Lemma parseLoop_cases args : ∀ r w,
  (∃ msg, parseLoop args r w = ([ConsoleError msg], Exit 1)) ∨
  (∃ r' w', parseLoop args r w = ([], Return (r', w')) ∧ Parses args r w r' w').
Proof.
  induction args as [|a rest IH] using args_ind; intros r w.
  { right. exists r, w. split; [done|constructor]. }
  cbn [parseLoop].
  destruct (classify a) eqn:Hc.
  - destruct (IH rest ltac:(done) (set_help r) w) as [?|(r' & w' & ? & ?)];
      [by left|right]. exists r', w'. split; [done|]. by apply Parses_help.
  - destruct rest as [|v rest']; [left; by eexists|].
    destruct (parseInt v) as [p|] eqn:Hp; [|left; by eexists].
    destruct (IH rest' ltac:(simpl; lia) (set_port p r) w) as [?|(r' & w' & ? & ?)];
      [by left|right]. exists r', w'. split; [done|]. by eapply Parses_port.
  - destruct rest as [|v rest']; [left; by eexists|].
    destruct (IH rest' ltac:(simpl; lia) r (<["pathToPfx" := v]> w))
      as [?|(r' & w' & ? & ?)]; [by left|right].
    exists r', w'. split; [done|]. eapply Parses_wss; [by rewrite Hc|done].
  - destruct rest as [|v rest']; [left; by eexists|].
    destruct (IH rest' ltac:(simpl; lia) r (<["pathToCert" := v]> w))
      as [?|(r' & w' & ? & ?)]; [by left|right].
    exists r', w'. split; [done|]. eapply Parses_wss; [by rewrite Hc|done].
  - destruct rest as [|v rest']; [left; by eexists|].
    destruct (IH rest' ltac:(simpl; lia) r (<["pathToKey" := v]> w))
      as [?|(r' & w' & ? & ?)]; [by left|right].
    exists r', w'. split; [done|]. eapply Parses_wss; [by rewrite Hc|done].
  - destruct rest as [|v rest']; [left; by eexists|].
    destruct (IH rest' ltac:(simpl; lia) r (<["passphrase" := v]> w))
      as [?|(r' & w' & ? & ?)]; [by left|right].
    exists r', w'. split; [done|]. eapply Parses_wss; [by rewrite Hc|done].
  - left. by eexists.
Qed.

(** The loop never writes the [wss] field of the result. *)
Lemma Parses_wss_field args r w r' w' :
  Parses args r w r' w' → wss r' = wss r.
Proof. induction 1; simpl in *; congruence. Qed.

(** [help] is set exactly by a help flag read as an option. *)
Lemma Parses_help_iff args r w r' w' :
  Parses args r w r' w' →
  help r' = true ↔ help r = true ∨ ∃ f, f ∈ flagTokens args ∧ classify f = FHelp.
Proof.
  induction 1 as [r w|a rest r w r' w' Hc _ IH|a v p rest r w r' w' Hc _ _ IH
                 |a v k rest r w r' w' Hc _ IH].
  - split; [by left|]. intros [?|(f & Hf & _)]; [done|]. by apply elem_of_nil in Hf.
  - rewrite IH. cbn [flagTokens]. rewrite Hc. split.
    + intros _. right. exists a. split; [left|done].
    + intros _. by left.
  - rewrite IH. cbn [flagTokens]. rewrite Hc. simpl. split.
    + intros [?|(f & Hf & ?)]; [by left|right]. exists f. split; [by right|done].
    + intros [?|(f & Hf & ?)]; [by left|]. apply elem_of_cons in Hf as [->|Hf].
      * congruence.
      * right. by exists f.
  - rewrite IH. cbn [flagTokens].
    destruct (classify a) eqn:Hca; try done; simpl.
    all: split; [intros [?|(f & Hf & ?)]; [by left|right]; exists f; split; [by right|done]|].
    all: intros [?|(f & Hf & ?)]; [by left|]; apply elem_of_cons in Hf as [->|Hf];
      [congruence|right; by exists f].
Qed.

(** [port] changes only at a port flag read as an option. *)
Lemma Parses_port_default args r w r' w' :
  Parses args r w r' w' →
  (∀ f, f ∈ flagTokens args → classify f ≠ FPort) → port r' = port r.
Proof.
  induction 1 as [r w|a rest r w r' w' Hc _ IH|a v p rest r w r' w' Hc _ _ IH
                 |a v k rest r w r' w' Hc _ IH]; intros Hno.
  - done.
  - rewrite IH; [done|]. intros f Hf. apply Hno. cbn [flagTokens]. rewrite Hc. by right.
  - destruct (Hno a); [left|done].
  - rewrite IH; [done|]. intros f Hf. apply Hno. cbn [flagTokens].
    destruct (classify a); try done; by right.
Qed.

(** The fields of the TLS options are those written by the options read. *)
Lemma Parses_dom args r w r' w' :
  Parses args r w r' w' → dom w' = dom w ∪ fieldsOf args.
Proof.
  induction 1 as [r w|a rest r w r' w' Hc _ IH|a v p rest r w r' w' Hc _ _ IH
                 |a v k rest r w r' w' Hc _ IH].
  - unfold fieldsOf. set_solver.
  - rewrite IH. unfold fieldsOf. cbn [flagTokens]. rewrite Hc. simpl. by rewrite Hc.
  - rewrite IH. unfold fieldsOf. cbn [flagTokens]. rewrite Hc. simpl. by rewrite Hc.
  - rewrite IH. unfold fieldsOf. cbn [flagTokens].
    destruct (classify a) eqn:Hca; try done; simpl in *; rewrite Hca; simpl;
      simplify_eq; set_solver.
Qed.

(** ** [parseArgs] *)

Definition initial : ParsedArgs := {| port := 9090; wss := None; help := false |}.

Lemma parseArgs_cases args :
  (∃ msg, parseArgs args = ([ConsoleError msg], Exit 1)) ∨
  (∃ r0 w, parseArgs args
           = ([], Return (if bool_decide (0 < size w)%nat then set_wss w r0 else r0))
           ∧ Parses args initial ∅ r0 w).
Proof.
  unfold parseArgs. fold initial.
  destruct (parseLoop_cases args initial ∅) as [[msg ->]|(r0 & w & -> & HP)].
  - left. by exists msg.
  - right. exists r0, w. split; [|done]. simpl. by case_bool_decide.
Qed.

Lemma parseArgs_accepts args r :
  outcome (parseArgs args) = Return r →
  parseArgs args = ([], Return r) ∧
  ∃ r0 w, Parses args initial ∅ r0 w ∧
          r = (if bool_decide (0 < size w)%nat then set_wss w r0 else r0).
Proof.
  destruct (parseArgs_cases args) as [[msg ->]|(r0 & w & -> & HP)]; [done|].
  simpl. intros [= <-]. eauto.
Qed.

Lemma parseArgs_help args r :
  outcome (parseArgs args) = Return r →
  help r = true ↔ ∃ f, f ∈ flagTokens args ∧ classify f = FHelp.
Proof.
  intros (_ & r0 & w & HP & ->)%parseArgs_accepts.
  assert (help (if bool_decide (0 < size w)%nat then set_wss w r0 else r0) = help r0)
    as -> by by case_bool_decide.
  rewrite (Parses_help_iff _ _ _ _ _ HP). simpl. naive_solver.
Qed.

Lemma parseArgs_port args r :
  outcome (parseArgs args) = Return r →
  (∀ f, f ∈ flagTokens args → classify f ≠ FPort) → port r = 9090.
Proof.
  intros (_ & r0 & w & HP & ->)%parseArgs_accepts Hno.
  assert (port (if bool_decide (0 < size w)%nat then set_wss w r0 else r0) = port r0)
    as -> by by case_bool_decide.
  by rewrite (Parses_port_default _ _ _ _ _ HP).
Qed.

Lemma parseArgs_wss args r :
  outcome (parseArgs args) = Return r →
  match wss r with
  | None => fieldsOf args = ∅
  | Some w => w ≠ ∅ ∧ dom w = fieldsOf args
  end.
Proof.
  intros (_ & r0 & w & HP & ->)%parseArgs_accepts.
  pose proof (Parses_dom _ _ _ _ _ HP) as Hdom.
  pose proof (Parses_wss_field _ _ _ _ _ HP) as Hwss. simpl in Hwss.
  rewrite dom_empty_L, (left_id_L ∅ (∪)) in Hdom.
  case_bool_decide as Hsize; simpl.
  - split; [|done]. intros ->. rewrite map_size_empty in Hsize. lia.
  - rewrite Hwss. rewrite <-Hdom.
    assert (size w = 0%nat) as ->%map_size_empty_inv by lia. by rewrite dom_empty_L.
Qed.

Lemma flagTokens_subseteq args : flagTokens args ⊆ args.
Proof.
  induction args as [|a rest IH] using args_ind; [done|].
  cbn [flagTokens]. intros f [->|Hf]%elem_of_cons; [left|right].
  destruct (classify a); try by apply (IH rest).
  all: destruct rest as [|v rest']; [by apply elem_of_nil in Hf|].
  all: right; apply (IH rest'); [simpl; lia|done].
Qed.

Lemma fieldsOf_subseteq args : fieldsOf args ⊆ wssFields.
Proof.
  unfold fieldsOf, wssFields. intros k [a [_ Hk]]%elem_of_list_to_set%list_elem_of_omap.
  destruct (classify a); simplify_eq/=; set_solver.
Qed.

(** ** The listeners of [run] *)

(** The server once [run] has registered its listeners. *)
Definition wired (port : Z) (wss : option (gmap string string)) : Server :=
  on "stop" onStop
    (on "command" onCommand
      (on "disconnect" onDisconnect
        (on "connectionEstablished" onConnectionEstablished
          (on "connect" onConnect
            (on "portUnavailable" onPortUnavailable
              (on "start" (onStart port wss) {| listeners := [] |})))))).

Definition signalsOf (server : Server) : list (Signal * (list ServerEvent → Proc.t unit)) :=
  [(SIGINT, shutdown server); (SIGTERM, shutdown server)].

(** What [run] returns. *)
Definition runtime (port : Z) (wss : option (gmap string string)) : Running :=
  {| server := wired port wss; signals := signalsOf (wired port wss) |}.

Lemma run_accepted args env r :
  outcome (parseArgs args) = Return r → help r = false →
  run args env
  = match createServerThrows env with
    | Some error => ([CreateServer (port r) (wss r)], Throw error)
    | None =>
        bind (effect (CreateServer (port r) (wss r))) (λ _,
          bind (start env (wired (port r) (wss r))) (λ _,
            ret (runtime (port r) (wss r))))
    end.
Proof.
  intros [Hparse _]%parseArgs_accepts Hhelp. unfold run.
  rewrite Hparse. change (@nil Effect, Return r) with (ret r).
  rewrite bind_ret_l, Hhelp. unfold createServer.
  destruct (createServerThrows env); [done|].
  rewrite bind_assoc. unfold effect. rewrite !bind_return.
  by rewrite bind_ret_l.
Qed.

Lemma run_help args env r :
  outcome (parseArgs args) = Return r → help r = true →
  run args env = ([ConsoleLog usage], Exit 0).
Proof.
  intros [Hparse _]%parseArgs_accepts Hhelp. unfold run.
  rewrite Hparse. change (@nil Effect, Return r) with (ret r).
  by rewrite bind_ret_l, Hhelp.
Qed.

Lemma run_rejected args msg :
  parseArgs args = ([ConsoleError msg], Exit 1) →
  ∀ env, run args env = ([ConsoleError msg], Exit 1).
Proof. intros Hparse env. unfold run. by rewrite Hparse. Qed.

Lemma emit_wired port wss ev :
  emit (wired port wss) ev
  = match ev with
    | Start => onStart port wss ev
    | PortUnavailable _ => onPortUnavailable ev
    | Connect => onConnect ev
    | ConnectionEstablished _ => onConnectionEstablished ev
    | Disconnect _ => onDisconnect ev
    | CommandReceived _ => onCommand ev
    | Stop => onStop ev
    end.
Proof.
  destruct ev; cbv [emit wired on listeners app foldr eventName];
    repeat case_decide; try done; apply bind_ret_tt.
Qed.

(** ** Traces and outcomes of composed computations *)

Lemma outcome_bind {A B} (m : Proc.t A) (k : A → Proc.t B) :
  outcome (bind m k)
  = match outcome m with
    | Return a => outcome (k a)
    | Exit code => Exit code
    | Throw error => Throw error
    end.
Proof. destruct m as [tr [a| |]]; simpl; try done. by destruct (k a). Qed.

Lemma trace_bind {A B} (m : Proc.t A) (k : A → Proc.t B) :
  trace (bind m k)
  = trace m ++ match outcome m with Return a => trace (k a) | _ => [] end.
Proof.
  destruct m as [tr [a| |]]; simpl; rewrite ?app_nil_r; try done. by destruct (k a).
Qed.

Lemma stderr_app tr1 tr2 : stderr (tr1 ++ tr2) = stderr tr1 ++ stderr tr2.
Proof. apply omap_app. Qed.

(** A computation that goes on and writes nothing to stderr. *)
Definition Silent (m : Proc.t unit) : Prop :=
  outcome m = Return tt ∧ stderr (trace m) = [].

(** A computation that ends the process with code 1 on the message of [f]. *)
Definition FailsWith (f : Failure) (m : Proc.t unit) : Prop :=
  outcome m = Exit 1 ∧ stderr (trace m) = [describe f].

Lemma Silent_bind (m : Proc.t unit) (k : unit → Proc.t unit) :
  Silent m →
  outcome (bind m k) = outcome (k tt) ∧
  stderr (trace (bind m k)) = stderr (trace (k tt)).
Proof.
  intros [Ho Hs]. by rewrite outcome_bind, trace_bind, stderr_app, Ho, Hs.
Qed.

Lemma FailsWith_bind f (m : Proc.t unit) (k : unit → Proc.t unit) :
  FailsWith f m → FailsWith f (bind m k).
Proof.
  intros [Ho Hs]. split.
  - by rewrite outcome_bind, Ho.
  - by rewrite trace_bind, stderr_app, Ho, Hs.
Qed.

Lemma unavailable_or_not ev :
  (∃ p, ev = PortUnavailable p) ∨ (∀ p, ev ≠ PortUnavailable p).
Proof. destruct ev; eauto. Qed.

Lemma firstUnavailable_skip ev evs :
  (∀ p, ev ≠ PortUnavailable p) →
  firstUnavailable (ev :: evs) = firstUnavailable evs.
Proof. intros Hev. destruct ev; try done. by destruct (Hev unavailablePort). Qed.

Lemma emit_wired_silent port wss ev :
  (∀ p, ev ≠ PortUnavailable p) → Silent (emit (wired port wss) ev).
Proof.
  intros Hev. rewrite emit_wired. destruct ev as [|p| | | |cmd|]; try done.
  - unfold onStart. by destruct wss.
  - by destruct (Hev p).
  - unfold onCommand. by case_decide.
Qed.

Lemma emit_wired_unavailable port wss p :
  FailsWith (PortInUse p) (emit (wired port wss) (PortUnavailable p)).
Proof. by rewrite emit_wired. Qed.

(** The listeners end the process at the first [portUnavailable] and
    at nothing else. *)
Lemma emitAll_wired port wss evs :
  match firstUnavailable evs with
  | Some p => FailsWith (PortInUse p) (emitAll (wired port wss) evs)
  | None => Silent (emitAll (wired port wss) evs)
  end.
Proof.
  induction evs as [|ev evs IH]; [done|].
  cbn [emitAll].
  destruct (unavailable_or_not ev) as [[p ->]|Hev].
  - cbn [firstUnavailable]. apply FailsWith_bind, emit_wired_unavailable.
  - rewrite firstUnavailable_skip by done.
    pose proof (emit_wired_silent port wss ev Hev) as Hsil.
    destruct (Silent_bind _ (λ _, emitAll (wired port wss) evs) Hsil) as [Ho Hs].
    destruct (firstUnavailable evs); unfold FailsWith, Silent in *; by rewrite Ho, Hs.
Qed.

Lemma shutdown_wired port wss stopEmits :
  match firstUnavailable stopEmits with
  | Some p => FailsWith (PortInUse p) (shutdown (wired port wss) stopEmits)
  | None => outcome (shutdown (wired port wss) stopEmits) = Exit 0
            ∧ stderr (trace (shutdown (wired port wss) stopEmits)) = []
  end.
Proof.
  pose proof (emitAll_wired port wss stopEmits) as H.
  unfold shutdown, stop, FailsWith, Silent in *.
  destruct (emitAll (wired port wss) stopEmits) as [tr o].
  destruct (firstUnavailable stopEmits) as [p|]; destruct H as [Ho Hs];
    simpl in Ho, Hs; subst o; simpl; by rewrite ?app_nil_r.
Qed.

Lemma react_signal port wss sig stopEmits :
  react (runtime port wss) (Signalled sig stopEmits)
  = shutdown (wired port wss) stopEmits.
Proof. destruct sig; simpl; by rewrite bind_ret_tt. Qed.

Lemma eventLoop_wired port wss pes :
  match firstUnavailable (delivered pes) with
  | Some p => FailsWith (PortInUse p) (eventLoop (runtime port wss) pes)
  | None => (outcome (eventLoop (runtime port wss) pes) = Return tt
             ∨ outcome (eventLoop (runtime port wss) pes) = Exit 0)
            ∧ stderr (trace (eventLoop (runtime port wss) pes)) = []
  end.
Proof.
  induction pes as [|[ev|sig stopEmits] pes IH]; [by split; [left|]| |].
  - cbn [eventLoop delivered react]. change (server (runtime port wss)) with (wired port wss).
    destruct (unavailable_or_not ev) as [[p ->]|Hev].
    + cbn [firstUnavailable]. apply FailsWith_bind, emit_wired_unavailable.
    + rewrite firstUnavailable_skip by done.
      pose proof (emit_wired_silent port wss ev Hev) as Hsil.
      destruct (Silent_bind _ (λ _, eventLoop (runtime port wss) pes) Hsil) as [Ho Hs].
      destruct (firstUnavailable (delivered pes)); unfold FailsWith in *; by rewrite Ho, Hs.
  - cbn [eventLoop delivered]. rewrite react_signal.
    pose proof (shutdown_wired port wss stopEmits) as H.
    destruct (firstUnavailable stopEmits) as [p|].
    + by apply FailsWith_bind.
    + destruct H as [Ho Hs]. rewrite outcome_bind, trace_bind, stderr_app, Ho, Hs.
      split; [by right|done].
Qed.

Lemma start_wired env port wss :
  match firstUnavailable (startEmits env) with
  | Some p => FailsWith (PortInUse p) (start env (wired port wss))
  | None => stderr (trace (start env (wired port wss))) = []
            ∧ outcome (start env (wired port wss))
              = match startThrows env with
                | Some error => Throw error
                | None => Return tt
                end
  end.
Proof.
  pose proof (emitAll_wired port wss (startEmits env)) as H.
  unfold start, FailsWith, Silent in *.
  destruct (emitAll (wired port wss) (startEmits env)) as [tr o].
  destruct (firstUnavailable (startEmits env)) as [p|]; destruct H as [Ho Hs];
    simpl in Ho, Hs; subst o; simpl; [done|].
  destruct (startThrows env); simpl; by rewrite stderr_app, Hs.
Qed.

(** The process for a command line that is accepted and does not ask
    for help. *)
Lemma main_started args env r :
  outcome (parseArgs args) = Return r → help r = false →
  match startupFailure env with
  | Some f => outcome (main args env) = Exit 1
              ∧ stderr (trace (main args env)) = [describe f]
  | None => (outcome (main args env) = Return tt ∨ outcome (main args env) = Exit 0)
            ∧ stderr (trace (main args env)) = []
  end.
Proof.
  intros Hparse Hhelp. unfold main, startupFailure.
  rewrite (run_accepted args env r Hparse Hhelp).
  destruct (createServerThrows env) as [error|]; [done|].
  pose proof (start_wired env (port r) (wss r)) as Hstart.
  pose proof (eventLoop_wired (port r) (wss r) (later env)) as Hloop.
  unfold FailsWith in *.
  destruct (start env (wired (port r) (wss r))) as [tr o].
  destruct (firstUnavailable (startEmits env)) as [p|].
  { destruct Hstart as [Ho Hs]. simpl in Ho, Hs. subst o. simpl. done. }
  destruct Hstart as [Hs Ho]. simpl in Ho, Hs. subst o.
  destruct (startThrows env) as [error|]; simpl.
  { rewrite stderr_app, Hs. done. }
  destruct (eventLoop (runtime (port r) (wss r)) (later env)) as [tr' o'].
  rewrite app_nil_r. simpl in *.
  destruct (firstUnavailable (delivered (later env))) as [p|]; simpl;
    rewrite stderr_app, Hs; simpl; done.
Qed.

(** An accepted command line without help flag creates the server
    with the parsed port and TLS options, and starts it. *)
Lemma main_creates_server args env r :
  outcome (parseArgs args) = Return r → help r = false →
  ∃ tr, trace (main args env) = CreateServer (port r) (wss r) :: tr
        ∧ (createServerThrows env = None → ∃ tr', tr = ServerStart :: tr').
Proof.
  intros Hparse Hhelp. unfold main.
  rewrite (run_accepted args env r Hparse Hhelp).
  destruct (createServerThrows env) as [error|]; [by eexists|].
  unfold start.
  destruct (emitAll (wired (port r) (wss r)) (startEmits env)) as [tr [[]| |]];
    destruct (startThrows env); simpl; eauto.
  destruct (eventLoop _ (later env)) as [tr' o']. simpl. eauto.
Qed.

(** ** The statements *)

(** C1, as the code has it.  The process ends with a nonzero code in
    three situations and in no other: [parseArgs] rejects the command
    line; [createServer] or [server.start()] throws, which is how a
    TLS failure reaches the process; the server emits
    [portUnavailable] while the process runs.  The code is then 1 and
    stderr holds one line, the message of the failure, which names the
    port for [portUnavailable].  Without such a failure nothing is
    written to stderr, whatever the other events are ([start],
    [connect], [connectionEstablished], [disconnect], [command],
    [stop]), and the process runs on or ends with code 0. *)
Theorem cli_exit_status args env :
  match failure args env with
  | Some f => outcome (main args env) = Exit 1
              ∧ stderr (trace (main args env)) = [describe f]
  | None => (outcome (main args env) = Return tt ∨ outcome (main args env) = Exit 0)
            ∧ stderr (trace (main args env)) = []
  end.
Proof.
  unfold failure.
  destruct (parseArgs_cases args) as [[msg Hp]|(r0 & w & Hp & _)].
  - rewrite Hp. unfold main. by rewrite (run_rejected _ _ Hp).
  - rewrite Hp.
    destruct (help _) eqn:Hhelp.
    + unfold main. erewrite run_help; [|by rewrite Hp|done]. split; [by right|done].
    + eapply main_started; [by rewrite Hp|done].
Qed.

(** C1 as stated fails: an unknown argument ends the process with
    code 1 although no server was ever created, so that no bind or TLS
    failure took place. *)
Lemma cli_exit_without_bind_failure :
  main ["--unknown-flag"] quiet
  = ([ConsoleError "Unknown argument: --unknown-flag"], Exit 1)
  ∧ startupFailure quiet = None.
Proof. split; reflexivity. Qed.

(** C2, as the code has it.  For an accepted command line that does
    not ask for help, the server is created with the TLS options of
    [parseArgs] as they are.  They are absent exactly when no [--wss-*]
    option was read; otherwise they are a non-empty object whose
    fields are exactly those of the [--wss-*] options read, any of
    [pathToPfx], [pathToCert], [pathToKey] and [passphrase]: the
    command line does not check which of them come together. *)
Theorem tls_options_forwarded args env r :
  outcome (parseArgs args) = Return r → help r = false →
  (∃ tr, trace (main args env) = CreateServer (port r) (wss r) :: tr)
  ∧ match wss r with
    | None => fieldsOf args = ∅
    | Some w => w ≠ ∅ ∧ dom w = fieldsOf args ∧ dom w ⊆ wssFields
    end.
Proof.
  intros Hparse Hhelp. split.
  - destruct (main_creates_server args env r Hparse Hhelp) as (tr & Htr & _). eauto.
  - pose proof (parseArgs_wss args r Hparse) as H.
    destruct (wss r) as [w|]; [|done].
    destruct H as [Hne Hdom]. repeat split; try done.
    rewrite Hdom. apply fieldsOf_subseteq.
Qed.

Lemma tls_options_forwarded_witness :
  (∃ tr, trace (main pfxArgs quiet) = CreateServer (port pfxParsed) (wss pfxParsed) :: tr)
  ∧ match wss pfxParsed with
    | None => fieldsOf pfxArgs = ∅
    | Some w => w ≠ ∅ ∧ dom w = fieldsOf pfxArgs ∧ dom w ⊆ wssFields
    end.
Proof.
  apply (tls_options_forwarded pfxArgs quiet pfxParsed).
  - vm_compute. reflexivity.
  - reflexivity.
Defined.

(** Every choice of the four fields is forwarded, the empty one as no
    TLS options at all. *)
Lemma tls_options_any_subset pfx cert key passphrase :
  parseArgs (wssArgs pfx cert key passphrase)
  = ([], Return {| port := 9090; help := false;
                   wss := if decide (wssObject pfx cert key passphrase = ∅) then None
                          else Some (wssObject pfx cert key passphrase) |}).
Proof.
  destruct pfx, cert, key, passphrase; vm_compute; reflexivity.
Qed.

(** C2 as stated fails: a certificate without its key is accepted and
    forwarded, and it is none of the three shapes. *)
Lemma tls_options_cert_without_key :
  main ["--wss-cert"; "cert.pem"] quiet
  = ([CreateServer 9090 (Some {[ "pathToCert" := "cert.pem" ]}); ServerStart], Return tt)
  ∧ specTlsShape (Some {[ "pathToCert" := "cert.pem" ]}) = false.
Proof. split; vm_compute; reflexivity. Qed.

(** C3.  When neither [--port] nor [-p] is on the command line, an
    accepted command line leaves the port at its default 9090; unless
    help was asked for, the server is created on port 9090 and
    started, and its [start] listener reports port 9090. *)
Theorem default_port args env r :
  "--port" ∉ args → "-p" ∉ args →
  outcome (parseArgs args) = Return r →
  port r = 9090
  ∧ (help r = false →
     (∃ tr, trace (main args env) = CreateServer 9090 (wss r) :: tr
            ∧ (createServerThrows env = None → ∃ tr', tr = ServerStart :: tr'))
     ∧ ∀ rt, outcome (run args env) = Return rt →
             ∃ tr, trace (emit (server rt) Start)
                   = ConsoleLog "✓ Reactotron server listening on port 9090" :: tr).
Proof.
  intros Hlong Hshort Hparse.
  assert (port r = 9090) as Hport.
  { apply (parseArgs_port args r Hparse). intros f Hf%flagTokens_subseteq Hc.
    unfold classify in Hc. repeat case_decide; simplify_eq. }
  split; [done|]. intros Hhelp. split.
  - rewrite <-Hport. by apply main_creates_server.
  - intros rt. rewrite (run_accepted args env r Hparse Hhelp).
    destruct (createServerThrows env); [done|].
    rewrite !outcome_bind. simpl.
    destruct (outcome (start env (wired (port r) (wss r)))) as [[]| |]; try done.
    intros [= <-]. change (server (runtime (port r) (wss r))) with (wired (port r) (wss r)).
    rewrite emit_wired, Hport. unfold onStart. destruct (wss r); by eexists.
Qed.

Lemma default_port_witness :
  port initial = 9090
  ∧ (help initial = false →
     (∃ tr, trace (main [] quiet) = CreateServer 9090 (wss initial) :: tr
            ∧ (createServerThrows quiet = None → ∃ tr', tr = ServerStart :: tr'))
     ∧ ∀ rt, outcome (run [] quiet) = Return rt →
             ∃ tr, trace (emit (server rt) Start)
                   = ConsoleLog "✓ Reactotron server listening on port 9090" :: tr).
Proof.
  apply (default_port [] quiet initial).
  - apply not_elem_of_nil.
  - apply not_elem_of_nil.
  - reflexivity.
Defined.

(** C7.  Once [run] has returned, the server holds one listener for
    each of the seven lifecycle events, under the names [start],
    [portUnavailable], [connect], [connectionEstablished],
    [disconnect], [command] and [stop], registered in this order before
    the server was started; every event of the specification's set is
    among them. *)
Theorem lifecycle_events_consumed args env rt :
  outcome (run args env) = Return rt →
  (listeners (server rt)).*1
  = ["start"; "portUnavailable"; "connect"; "connectionEstablished";
     "disconnect"; "command"; "stop"]
  ∧ ∀ e : LifecycleEvent, implName e ∈ (listeners (server rt)).*1.
Proof.
  intros Hrun.
  assert (∃ p w, server rt = wired p w) as (p & w & ->).
  { destruct (parseArgs_cases args) as [[msg Hp]|(r0 & w & Hp & _)].
    - by rewrite (run_rejected _ _ Hp) in Hrun.
    - destruct (help (if bool_decide (0 < size w)%nat then set_wss w r0 else r0)) eqn:Hhelp.
      + erewrite run_help in Hrun; [done|by rewrite Hp|done].
      + erewrite run_accepted in Hrun; [|by rewrite Hp|done].
        destruct (createServerThrows env); [done|].
        rewrite !outcome_bind in Hrun. simpl in Hrun.
        destruct (outcome (start env _)) as [[]| |]; try done.
        injection Hrun as <-. by eexists _, _. }
  split; [done|]. intros []; simpl; set_solver.
Qed.

Lemma lifecycle_events_consumed_witness :
  (listeners (server (runtime 9090 None))).*1
  = ["start"; "portUnavailable"; "connect"; "connectionEstablished";
     "disconnect"; "command"; "stop"]
  ∧ ∀ e : LifecycleEvent, implName e ∈ (listeners (server (runtime 9090 None))).*1.
Proof.
  apply (lifecycle_events_consumed [] quiet (runtime 9090 None)). reflexivity.
Defined.

(** C9, as the code has it.  If the command line is accepted and
    [--help] or [-h] is read as an option, that is, not as the value
    of the option before it, the process prints the usage text and
    ends with code 0; no server is created or started. *)
Theorem help_exits_zero args env r :
  outcome (parseArgs args) = Return r →
  (∃ f, f ∈ flagTokens args ∧ (f = "--help" ∨ f = "-h")) →
  main args env = ([ConsoleLog usage], Exit 0).
Proof.
  intros Hparse (f & Hf & Hhelp).
  assert (help r = true) as Hr.
  { apply (parseArgs_help args r Hparse). exists f. split; [done|].
    by destruct Hhelp as [-> | ->]. }
  unfold main. by rewrite (run_help args env r Hparse Hr).
Qed.

Lemma help_exits_zero_witness :
  main ["-p"; "8080"; "-h"] quiet = ([ConsoleLog usage], Exit 0).
Proof.
  apply (help_exits_zero ["-p"; "8080"; "-h"] quiet
           {| port := 8080; wss := None; help := true |}).
  - reflexivity.
  - exists "-h". split; [|right; reflexivity].
    vm_compute. apply list_elem_of_further, list_elem_of_here.
Defined.

(** C9 as stated fails: [-h] after [--wss-passphrase] is the
    passphrase; the command line is accepted and contains [-h], and
    the server is created and started without any usage text. *)
Lemma help_as_value_starts_server :
  "-h" ∈ ["--wss-passphrase"; "-h"]
  ∧ parseArgs ["--wss-passphrase"; "-h"]
    = ([], Return {| port := 9090; help := false;
                     wss := Some {[ "passphrase" := "-h" ]} |})
  ∧ main ["--wss-passphrase"; "-h"] quiet
    = ([CreateServer 9090 (Some {[ "passphrase" := "-h" ]}); ServerStart], Return tt).
Proof. split; [set_solver|]. split; vm_compute; reflexivity. Qed.

End CliSpec.

(** * Properties of the custom-command panel *)

Module PanelSpec.
Import CustomCommands.

(** ** The reducer *)

Lemma alloc_fresh (h : heap) o : h !! (alloc h o).2 = None.
Proof. apply not_elem_of_dom, is_fresh. Qed.

Lemma alloc_lookup (h : heap) o : (alloc h o).1 !! (alloc h o).2 = Some o.
Proof. apply lookup_insert_eq. Qed.

Lemma alloc_subseteq (h : heap) o : h ⊆ (alloc h o).1.
Proof. apply insert_subseteq, (alloc_fresh h o). Qed.

(** One [UPDATE_ARG] on a state that holds the object [m]. *)
Lemma reducer_update (h : heap) state m n v :
  h !! state = Some m →
  ∃ h' state',
    customCommandItemReducer h state (UPDATE_ARG n v) = Some (h', state')
    ∧ h' !! state' = Some (draftAssign n v m)
    ∧ h ⊆ h'.
Proof.
  intros Hstate. unfold customCommandItemReducer, produce. simpl.
  rewrite Hstate. simpl. unfold draft_set, draftAssign. simpl.
  case_decide as Hproto; simpl; [by exists h, state|].
  case_bool_decide as Hsame; simpl.
  - exists h, state. by rewrite insert_id.
  - exists (alloc h (<[n := v]> m)).1, (alloc h (<[n := v]> m)).2.
    split; [done|]. split; [apply alloc_lookup|apply alloc_subseteq].
Qed.

(** An [UPDATE_ARG] for the name [__proto__] gives back the state that
    it was given, on the same heap. *)
Lemma reducer_update_proto (h : heap) state m v :
  h !! state = Some m →
  customCommandItemReducer h state (UPDATE_ARG "__proto__" v) = Some (h, state).
Proof.
  intros Hstate. unfold customCommandItemReducer, produce. simpl.
  by rewrite Hstate.
Qed.

(** C4, at the name [__proto__].  An [UPDATE_ARG] for
    [("__proto__", "x")] returns the state that it was given: the
    write goes to the setter that [Object.prototype] holds under this
    name, so that the map of the result does not bind [__proto__] to
    ["x"], nor to anything. *)
Theorem update_arg_proto_not_written :
  let state0 : gmap string string := {[ "a" := "" ]} in
  customCommandItemReducer {[ 0%nat := state0 ]} 0%nat (UPDATE_ARG "__proto__" "x")
  = Some ({[ 0%nat := state0 ]}, 0%nat)
  ∧ state0 !! "__proto__" = None.
Proof. split; reflexivity. Qed.

(** For every name but [__proto__], an [UPDATE_ARG] for [(n, v)] on a
    state that holds an argument map gives a state whose map binds
    [n] to [v] and every other name as before; the object of the input
    state, and every other object, is left as it was. *)
Theorem update_arg_copy_on_write (h : heap) state m n v :
  n ≠ "__proto__" →
  h !! state = Some m →
  ∃ h' state' m',
    customCommandItemReducer h state (UPDATE_ARG n v) = Some (h', state')
    ∧ h' !! state' = Some m'
    ∧ m' !! n = Some v
    ∧ (∀ k, k ≠ n → m' !! k = m !! k)
    ∧ h' !! state = Some m
    ∧ h ⊆ h'.
Proof.
  intros Hn Hstate.
  destruct (reducer_update h state m n v Hstate) as (h' & state' & Hred & Hnew & Hsub).
  unfold draftAssign in Hnew. rewrite decide_False in Hnew by done.
  exists h', state', (<[n := v]> m). repeat split; try done.
  - apply lookup_insert_eq.
  - intros k Hk. by apply lookup_insert_ne.
  - by eapply lookup_weaken.
Qed.

Lemma update_arg_copy_on_write_witness :
  ∃ h' state' m',
    customCommandItemReducer {[ 0%nat := {[ "a" := "" ; "b" := "x" ]} ]} 0%nat
      (UPDATE_ARG "a" "1") = Some (h', state')
    ∧ h' !! state' = Some m'
    ∧ m' !! "a" = Some "1"
    ∧ (∀ k, k ≠ "a" → m' !! k = ({[ "a" := "" ; "b" := "x" ]} : gmap string string) !! k)
    ∧ h' !! 0%nat = Some {[ "a" := "" ; "b" := "x" ]}
    ∧ {[ 0%nat := {[ "a" := "" ; "b" := "x" ]} ]} ⊆ h'.
Proof.
  apply (update_arg_copy_on_write
           {[ 0%nat := {[ "a" := "" ; "b" := "x" ]} ]} 0%nat
           {[ "a" := "" ; "b" := "x" ]} "a" "1").
  - discriminate.
  - reflexivity.
Defined.

(** C10.  On an action whose type is not [UPDATE_ARG] the reducer
    returns the state it was given, the same reference, and leaves
    the heap as it is. *)
Theorem reducer_identity_outside_update (h : heap) state action :
  type action ≠ "UPDATE_ARG" →
  customCommandItemReducer h state action = Some (h, state).
Proof. intros Htype. unfold customCommandItemReducer. by case_decide. Qed.

Lemma reducer_identity_outside_update_witness :
  customCommandItemReducer {[ 0%nat := {[ "a" := "" ]} ]} 0%nat
    {| type := "RESET"; payload := None |}
  = Some ({[ 0%nat := {[ "a" := "" ]} ]}, 0%nat).
Proof.
  apply (reducer_identity_outside_update
           {[ 0%nat := {[ "a" := "" ]} ]} 0%nat {| type := "RESET"; payload := None |}).
  simpl. discriminate.
Defined.

(** ** Sequences of edits *)

Lemma dispatchAll_edited (edits : list (string * string)) : ∀ (h : heap) state m,
  h !! state = Some m →
  ∃ h' state',
    dispatchAll h state (uncurry UPDATE_ARG <$> edits) = Some (h', state')
    ∧ h' !! state' = Some (edited m edits)
    ∧ h ⊆ h'.
Proof.
  induction edits as [|[n v] edits IH]; intros h state m Hstate.
  { by exists h, state. }
  destruct (reducer_update h state m n v Hstate) as (h1 & s1 & Hred & Hnew & Hsub).
  destruct (IH h1 s1 _ Hnew) as (h' & state' & Hall & Hlookup & Hsub').
  exists h', state'. cbn [fmap list_fmap dispatchAll uncurry].
  rewrite Hred. simpl. repeat split; try done. by transitivity h1.
Qed.

(** The edits never write the name [__proto__]. *)
Lemma edited_lookup_proto (edits : list (string * string)) : ∀ (m : gmap string string),
  edited m edits !! "__proto__" = m !! "__proto__".
Proof.
  unfold edited. induction edits as [|[k v] edits IH]; intros m; [done|].
  cbn [foldl]. rewrite IH. unfold draftAssign. simpl.
  case_decide; [done|]. by apply lookup_insert_ne.
Qed.

Lemma edited_lookup (edits : list (string * string)) : ∀ (m : gmap string string) n,
  n ≠ "__proto__" →
  edited m edits !! n
  = foldl (λ acc e, if decide (e.1 = n) then Some e.2 else acc) (m !! n) edits.
Proof.
  unfold edited. induction edits as [|[k v] edits IH]; intros m n Hn; [done|].
  cbn [foldl]. rewrite IH by done. f_equal. unfold draftAssign. simpl.
  destruct (decide (k = n)) as [->|Hk].
  - rewrite decide_False by done. apply lookup_insert_eq.
  - case_decide; [done|]. by apply lookup_insert_ne.
Qed.

Lemma edited_lookup_typed (edits : list (string * string)) (m : gmap string string) n :
  n ≠ "__proto__" → m !! n = Some "" → edited m edits !! n = Some (typed edits n).
Proof.
  intros Hproto Hn. rewrite edited_lookup, Hn by done. unfold typed.
  generalize "". induction edits as [|[k v] edits IH]; intros text; [done|].
  cbn [foldl]. simpl. case_decide; apply IH.
Qed.

Lemma edited_lookup_untouched (edits : list (string * string))
    (m : gmap string string) n :
  n ∉ edits.*1 → edited m edits !! n = m !! n.
Proof.
  revert m. unfold edited. induction edits as [|[k v] edits IH]; intros m Hn; [done|].
  cbn [foldl]. rewrite IH by set_solver. unfold draftAssign. simpl.
  case_decide; [done|]. apply lookup_insert_ne. set_solver.
Qed.

(** ** The initial argument map and the invocation *)

Lemma assign_lookup_proto n v (o : gmap string string) :
  o !! "__proto__" = None → assign n v o !! "__proto__" = None.
Proof.
  intros Ho. unfold assign. case_decide as H; [done|].
  rewrite lookup_insert_ne; [done|]. intros ->. apply H. by split.
Qed.

Lemma foldl_args_lookup (args : list Arg) : ∀ (acc : gmap string string) n,
  acc !! "__proto__" = None →
  foldl (λ argMap arg, assign (name arg) "" argMap) acc args !! n
  = if decide (n ≠ "__proto__" ∧ n ∈ name <$> args) then Some "" else acc !! n.
Proof.
  induction args as [|a args IH]; intros acc n Hacc.
  { rewrite decide_False; [done|]. intros [_ H]. by apply elem_of_nil in H. }
  cbn [foldl]. rewrite IH by by apply assign_lookup_proto. rewrite fmap_cons.
  destruct (decide (n ≠ "__proto__" ∧ n ∈ name <$> args)) as [[Hn Hin]|Hno].
  { rewrite decide_True; [done|]. split; [done|by right]. }
  destruct (decide (n ≠ "__proto__" ∧ n ∈ name a :: (name <$> args))) as [[Hn Hin]|Hno'].
  - apply elem_of_cons in Hin as [->|Hin]; [|by destruct Hno].
    unfold assign. rewrite decide_False by (by intros [? _]). apply lookup_insert_eq.
  - unfold assign. case_decide as H; [done|].
    apply lookup_insert_ne. intros <-.
    destruct (decide (name a = "__proto__")) as [Heq|Hne].
    + apply H. by rewrite Heq.
    + apply Hno'. split; [done|left].
Qed.

(** The initial map binds the declared names to the empty text, all of
    them but [__proto__]. *)
Lemma initArgMap_lookup {Id} (cc : CustomCommand Id) n :
  initArgMap (args cc) !! n
  = if decide (n ≠ "__proto__" ∧ n ∈ declared cc) then Some "" else None.
Proof.
  unfold initArgMap, declared. destruct (args cc) as [l|]; simpl.
  - by rewrite foldl_args_lookup, lookup_empty.
  - rewrite decide_False; [done|]. intros [_ H]. by apply elem_of_nil in H.
Qed.

(** C5, at the name [__proto__].  For a command that declares an
    argument of this name the initial argument map is empty: the
    assignment of the initialiser goes to the setter that
    [Object.prototype] holds under the name.  The map stays empty when
    the operator types into the input, and it is the empty map that is
    sent: the declared argument is not sent with the empty text, it is
    not sent at all. *)
Theorem proto_argument_not_sent (h : heap) (v : string) :
  declared protoCommand = ["__proto__"]
  ∧ initArgMap (args protoCommand) = ∅
  ∧ dispatchAll (mount h protoCommand).1 (mount h protoCommand).2
      [UPDATE_ARG "__proto__" v]
    = Some (mount h protoCommand)
  ∧ send protoCommand (mount h protoCommand).1 (mount h protoCommand).2
    = Some ("setPrototype", ∅).
Proof.
  split; [done|]. split; [done|]. split.
  - cbn [dispatchAll].
    rewrite (reducer_update_proto _ _ (initArgMap (args protoCommand)))
      by apply alloc_lookup.
    reflexivity.
  - unfold send. unfold mount. by rewrite alloc_lookup.
Qed.

(** The initial argument map of a command binds exactly the names of
    its declared arguments other than [__proto__], each to the empty
    text, and is empty for a command without arguments; whatever the
    operator then edits, every such argument that was not edited is
    sent with the empty text. *)
Theorem unfilled_args_sent_empty {Id} (h : heap) (cc : CustomCommand Id)
    (edits : list (string * string)) :
  (∀ n, initArgMap (args cc) !! n
        = if decide (n ≠ "__proto__" ∧ n ∈ declared cc) then Some "" else None)
  ∧ (declared cc = [] → initArgMap (args cc) = ∅)
  ∧ ∃ h' state' sent,
      dispatchAll (mount h cc).1 (mount h cc).2 (uncurry UPDATE_ARG <$> edits)
      = Some (h', state')
      ∧ send cc h' state' = Some (command cc, sent)
      ∧ ∀ n, n ∈ declared cc → n ≠ "__proto__" → n ∉ edits.*1 → sent !! n = Some "".
Proof.
  split; [apply initArgMap_lookup|]. split.
  { intros Hnone. apply map_eq. intros n.
    rewrite initArgMap_lookup, Hnone, lookup_empty.
    rewrite decide_False; [done|]. intros [_ H]. by apply elem_of_nil in H. }
  destruct (dispatchAll_edited edits (mount h cc).1 (mount h cc).2
              (initArgMap (args cc)) (alloc_lookup _ _))
    as (h' & state' & Hall & Hlookup & _).
  exists h', state', (edited (initArgMap (args cc)) edits). split; [done|]. split.
  - unfold send. by rewrite Hlookup.
  - intros n Hdecl Hproto Hedit.
    rewrite edited_lookup_untouched, initArgMap_lookup by done.
    by rewrite decide_True.
Qed.

(** ** Strings *)

Lemma app_empty_l (s : string) : "" +:+ s = s.
Proof. done. Qed.

Lemma app_String (c : ascii) (s t : string) : String c s +:+ t = String c (s +:+ t).
Proof. done. Qed.

Lemma string_app_assoc (s t u : string) : (s +:+ t) +:+ u = s +:+ (t +:+ u).
Proof. induction s as [|c s IH]; [done|]. by rewrite !app_String, IH. Qed.

Lemma prefix_spec (p : string) : ∀ s,
  String.prefix p s = true ↔ ∃ post, s = p +:+ post.
Proof.
  induction p as [|a p IH]; intros s.
  { destruct s; (split; [intros _; by eexists|done]). }
  destruct s as [|b s]; cbn [String.prefix].
  { split; [done|]. by intros [post [=]]. }
  destruct (ascii_dec a b) as [->|Hne].
  - rewrite IH. split; intros [post Hpost]; exists post.
    + by rewrite app_String, Hpost.
    + rewrite app_String in Hpost. by injection Hpost.
  - split; [done|]. intros [post Hpost]. rewrite app_String in Hpost.
    injection Hpost as -> _. by destruct Hne.
Qed.

Lemma indexOfFrom_spec (hay : string) : ∀ i needle,
  0 ≤ i →
  indexOfFrom i hay needle > -1 ↔ ∃ pre post, hay = pre +:+ needle +:+ post.
Proof.
  induction hay as [|c hay IH]; intros i needle Hi; cbn [indexOfFrom].
  - destruct (String.prefix needle "") eqn:Hp.
    + split; [intros _|lia]. apply prefix_spec in Hp as [post Hpost].
      exists "", post. by rewrite app_empty_l.
    + split; [lia|]. intros (pre & post & Heq).
      destruct pre; [|done]. rewrite app_empty_l in Heq.
      assert (String.prefix needle "" = true) by (apply prefix_spec; eauto).
      congruence.
  - destruct (String.prefix needle (String c hay)) eqn:Hp.
    + split; [intros _|lia]. apply prefix_spec in Hp as [post Hpost].
      exists "", post. by rewrite app_empty_l.
    + rewrite IH by lia. split.
      * intros (pre & post & ->). exists (String c pre), post. by rewrite app_String.
      * intros (pre & post & Heq). destruct pre as [|c' pre].
        -- rewrite app_empty_l in Heq.
           assert (String.prefix needle (String c hay) = true)
             by (apply prefix_spec; eauto).
           congruence.
        -- rewrite app_String in Heq. injection Heq as -> ->. eauto.
Qed.

Lemma indexOf_spec hay needle :
  indexOf hay needle > -1 ↔ ∃ pre post, hay = pre +:+ needle +:+ post.
Proof. by apply indexOfFrom_spec. Qed.


(** ** Letter case *)





Lemma toLowerCase_app s t : toLowerCase (s +:+ t) = toLowerCase s +:+ toLowerCase t.
Proof.
  induction s as [|c s IH]; [done|].
  rewrite app_String. cbn [toLowerCase]. by rewrite IH, app_String.
Qed.



(** ** The search filter *)


Section Commands.
Context {Id : Type}.


End Commands.


(** ** The render keys *)

Lemma occurs_app c s t : occurs c (s +:+ t) = occurs c s || occurs c t.
Proof.
  induction s as [|c' s IH]; [done|].
  rewrite app_String. cbn [occurs]. by rewrite IH, orb_assoc.
Qed.

(** A separator that does not occur after it splits a text in one way. *)
Lemma separator_inj c (s1 : string) : ∀ s2 t1 t2,
  occurs c t1 = false → occurs c t2 = false →
  s1 +:+ String c t1 = s2 +:+ String c t2 → s1 = s2 ∧ t1 = t2.
Proof.
  induction s1 as [|a s1 IH]; intros [|b s2] t1 t2 H1 H2 Heq.
  - rewrite !app_empty_l in Heq. by injection Heq.
  - rewrite app_empty_l, app_String in Heq. injection Heq as -> ->.
    rewrite occurs_app in H1. cbn [occurs] in H1.
    rewrite bool_decide_eq_true_2, orb_true_r in H1; done.
  - rewrite app_empty_l, app_String in Heq. injection Heq as -> <-.
    rewrite occurs_app in H2. cbn [occurs] in H2.
    rewrite bool_decide_eq_true_2, orb_true_r in H2; done.
  - rewrite !app_String in Heq. injection Heq as -> Heq.
    destruct (IH s2 t1 t2 H1 H2 Heq) as [-> ->]. done.
Qed.

(** The decimal text of a natural number holds digits only. *)
Lemma pretty_N_go_no_dash (x : N) : ∀ s,
  occurs "-" s = false → occurs "-" (pretty_N_go x s) = false.
Proof.
  induction (N.lt_wf_0 x) as [x _ IH]; intros s Hs.
  destruct (decide (x = 0)%N) as [->|Hx]; [by rewrite pretty_N_go_0|].
  rewrite pretty_N_go_step by lia. apply IH.
  - apply N.div_lt; lia.
  - cbn [occurs]. rewrite Hs, orb_false_r. apply bool_decide_eq_false.
    unfold pretty_N_char. by repeat case_match.
Qed.

Lemma pretty_N_no_dash (x : N) : occurs "-" (pretty x) = false.
Proof.
  unfold pretty, pretty_N. case_decide; [done|]. by apply pretty_N_go_no_dash.
Qed.

Section Keys.
Context {Id : Type} (idText : Id → string).

Lemma renderKey_inj (cc1 cc2 : CustomCommand Id) :
  occurs "-" (idText (id cc1)) = false →
  occurs "-" (idText (id cc2)) = false →
  renderKey idText cc1 = renderKey idText cc2 →
  clientId cc1 = clientId cc2 ∧ idText (id cc1) = idText (id cc2).
Proof. unfold renderKey. intros H1 H2 Heq. by apply separator_inj in Heq. Qed.


(** If the identifiers have texts without [-], different for different
    identifiers, and the list gives each pair once, no key is rendered
    twice. *)
Lemma rendered_keys_NoDup search (customCommands : list (CustomCommand Id)) :
  Forall (λ cc, occurs "-" (idText (id cc)) = false) customCommands →
  (∀ i j, idText i = idText j → i = j) →
  NoDup ((λ cc, (clientId cc, id cc)) <$> customCommands) →
  NoDup (renderedKeys idText search customCommands).
Proof.
  intros Hdash Hinj Hnodup. unfold renderedKeys.
  assert (NoDup ((λ cc, (clientId cc, id cc)) <$> filteredCustomCommands search customCommands)
          ∧ Forall (λ cc, occurs "-" (idText (id cc)) = false)
              (filteredCustomCommands search customCommands))
    as [Hfiltered Hdash'].
  { unfold filteredCustomCommands. case_decide; [|done].
    induction customCommands as [|cc l IH]; [done|].
    rewrite fmap_cons in Hnodup. apply NoDup_cons in Hnodup as [Hcc Hl].
    apply Forall_cons in Hdash as [Hd Hdash].
    destruct (IH Hdash Hl) as [IH1 IH2].
    cbn [List.filter]. destruct (_ || _); [|done].
    split; [|by constructor].
    rewrite fmap_cons. apply NoDup_cons. split; [|done].
    intros (cc' & Hpair & Hin)%list_elem_of_fmap. apply Hcc.
    apply list_elem_of_fmap. exists cc'. split; [done|].
    apply list_elem_of_In. apply list_elem_of_In, filter_In in Hin as [Hin _]. done. }
  revert Hfiltered Hdash'. generalize (filteredCustomCommands search customCommands).
  induction l as [|cc l IH]; [constructor|].
  rewrite !fmap_cons, !NoDup_cons. intros [Hcc Hl] [Hd Hdl]%Forall_cons.
  split; [|by apply IH].
  intros (cc' & Hkey & Hin)%list_elem_of_fmap. apply Hcc.
  apply list_elem_of_fmap. exists cc'. split; [|done].
  apply renderKey_inj in Hkey as [-> Hid]; [|done|].
  - by rewrite (Hinj _ _ Hid).
  - by eapply Forall_forall in Hdl.
Qed.

End Keys.



End PanelSpec.

(** * Further properties of the command line *)

Module CliExtra.
Import Proc Cli CliSpec.

(** ** The loop of [parseArgs] goes through the arguments in order *)

Lemma Parses_app pre r w r' w' :
  Parses pre r w r' w' →
  ∀ rest, parseLoop (pre ++ rest) r w = parseLoop rest r' w'.
Proof.
  induction 1 as [r w|a pre r w r' w' Hc _ IH|a v p pre r w r' w' Hc Hp _ IH
                 |a v k pre r w r' w' Hc _ IH]; intros rest.
  - done.
  - rewrite <-app_comm_cons. cbn [parseLoop]. by rewrite Hc.
  - rewrite <-!app_comm_cons. cbn [parseLoop]. by rewrite Hc, Hp.
  - rewrite <-!app_comm_cons. cbn [parseLoop].
    destruct (classify a); simplify_eq/=; apply IH.
Qed.

Lemma parseLoop_returns pre r w r' w' :
  outcome (parseLoop pre r w) = Return (r', w') → Parses pre r w r' w'.
Proof.
  destruct (parseLoop_cases pre r w) as [[msg ->]|(r1 & w1 & -> & HP)]; [done|].
  by intros [= <- <-].
Qed.

(** If the loop reads [pre] to its end, then on [pre ++ rest] it goes
    on with [rest] from the state that [pre] has left. *)
Theorem parseLoop_app pre rest r w r' w' :
  outcome (parseLoop pre r w) = Return (r', w') →
  parseLoop (pre ++ rest) r w = parseLoop rest r' w'.
Proof. intros HP%parseLoop_returns. by apply Parses_app. Qed.

Lemma parseLoop_app_witness :
  parseLoop (["-p"; "80"] ++ ["--wss-key"]) initial ∅
  = parseLoop ["--wss-key"] (set_port 80 initial) ∅.
Proof. apply (parseLoop_app ["-p"; "80"] ["--wss-key"]). reflexivity. Defined.

(** The last step of [parseArgs], on the state that the loop has left. *)
Definition finish (r0 : ParsedArgs) (w : gmap string string) : ParsedArgs :=
  if bool_decide (0 < size w)%nat then set_wss w r0 else r0.

(** What [parseArgs] does after a prefix that it accepts. *)
Lemma parseArgs_after pre r :
  outcome (parseArgs pre) = Return r →
  ∃ r0 w, r = finish r0 w ∧ wss r0 = None ∧
    ∀ rest, parseArgs (pre ++ rest)
            = bind (parseLoop rest r0 w) (λ '(r1, w1), ret (finish r1 w1)).
Proof.
  intros (_ & r0 & w & HP & ->)%parseArgs_accepts.
  exists r0, w. split; [done|]. split; [apply (Parses_wss_field _ _ _ _ _ HP)|].
  intros rest. unfold parseArgs. fold initial. rewrite (Parses_app _ _ _ _ _ HP).
  destruct (parseLoop rest r0 w) as [tr [[r1 w1]| |]]; simpl; try done.
  unfold finish. by case_bool_decide.
Qed.

(** ** Rejected command lines *)

(** A rejected command line ends the process on its one message,
    whatever the environment. *)
Lemma main_rejected args msg env :
  parseArgs args = ([ConsoleError msg], Exit 1) →
  main args env = ([ConsoleError msg], Exit 1).
Proof. intros Hparse. unfold main. by rewrite (run_rejected _ _ Hparse). Qed.

(** After any accepted arguments, an argument that is no option ends
    the process with code 1 on [Unknown argument: ...]; nothing that
    comes before or after it is acted upon: no usage text, no server. *)
Theorem unknown_argument_exits pre a rest env r :
  outcome (parseArgs pre) = Return r →
  classify a = FUnknown →
  main (pre ++ a :: rest) env = ([ConsoleError ("Unknown argument: " +:+ a)], Exit 1).
Proof.
  intros (r0 & w & _ & _ & Happ)%parseArgs_after Hc.
  apply main_rejected. rewrite Happ. cbn [parseLoop]. by rewrite Hc.
Qed.

Lemma unknown_argument_exits_witness :
  main (["--help"] ++ "--unknown-flag" :: ["--port"; "80"]) quiet
  = ([ConsoleError "Unknown argument: --unknown-flag"], Exit 1).
Proof.
  apply (unknown_argument_exits ["--help"] "--unknown-flag" ["--port"; "80"] quiet
           (set_help initial)); reflexivity.
Defined.

(** After any accepted arguments, an option that takes a value and is
    the last argument ends the process with code 1 on the message of
    that option; [-p] is reported as [--port]. *)
Theorem missing_value_exits pre a env r msg :
  outcome (parseArgs pre) = Return r →
  missingValue (classify a) = Some msg →
  main (pre ++ [a]) env = ([ConsoleError msg], Exit 1).
Proof.
  intros (r0 & w & _ & _ & Happ)%parseArgs_after Hmsg.
  apply main_rejected. rewrite Happ. cbn [parseLoop].
  destruct (classify a); simplify_eq/=; done.
Qed.

Lemma missing_value_exits_witness :
  main (["--wss-pfx"; "./server.pfx"] ++ ["-p"]) quiet
  = ([ConsoleError "--port requires a value"], Exit 1).
Proof.
  apply (missing_value_exits ["--wss-pfx"; "./server.pfx"] "-p" quiet
           (set_wss {[ "pathToPfx" := "./server.pfx" ]} initial)).
  - vm_compute. reflexivity.
  - reflexivity.
Defined.

(** After any accepted arguments, a port option whose value does not
    begin with a number ends the process with code 1 on
    [Invalid port: ...], whatever follows. *)
Theorem invalid_port_exits pre a v rest env r :
  outcome (parseArgs pre) = Return r →
  classify a = FPort →
  parseInt v = None →
  main (pre ++ a :: v :: rest) env = ([ConsoleError ("Invalid port: " +:+ v)], Exit 1).
Proof.
  intros (r0 & w & _ & _ & Happ)%parseArgs_after Hc Hv.
  apply main_rejected. rewrite Happ. cbn [parseLoop]. by rewrite Hc, Hv.
Qed.

Lemma invalid_port_exits_witness :
  main ([] ++ "--port" :: "invalid" :: ["--help"]) quiet
  = ([ConsoleError "Invalid port: invalid"], Exit 1).
Proof.
  apply (invalid_port_exits [] "--port" "invalid" ["--help"] quiet initial); reflexivity.
Defined.

(** ** Options given more than once *)

(** A port option at the end of an accepted command line replaces the
    port and changes nothing else. *)
Theorem last_port_wins pre a v p r :
  outcome (parseArgs pre) = Return r →
  classify a = FPort →
  parseInt v = Some p →
  parseArgs (pre ++ [a; v]) = ([], Return (set_port p r)).
Proof.
  intros (r0 & w & -> & _ & Happ)%parseArgs_after Hc Hv.
  rewrite Happ. cbn [parseLoop]. rewrite Hc, Hv. simpl.
  unfold finish. by case_bool_decide.
Qed.

Lemma last_port_wins_witness :
  parseArgs (["--port"; "8080"] ++ ["-p"; "9000"])
  = ([], Return (set_port 9000 (set_port 8080 initial))).
Proof.
  apply (last_port_wins ["--port"; "8080"] "-p" "9000" 9000 (set_port 8080 initial));
    reflexivity.
Defined.

(** A TLS option at the end of an accepted command line writes its own
    field of the TLS options, over the value that the field had, and
    leaves the other fields, the port and the help flag as they were. *)
Theorem last_wss_option_wins pre a v k r :
  outcome (parseArgs pre) = Return r →
  fieldOf (classify a) = Some k →
  parseArgs (pre ++ [a; v])
  = ([], Return (set_wss (<[k := v]> (default ∅ (wss r))) r)).
Proof.
  intros (r0 & w & -> & Hwss & Happ)%parseArgs_after Hk.
  rewrite Happ. cbn [parseLoop].
  assert (default ∅ (wss (finish r0 w)) = w) as ->.
  { unfold finish. case_bool_decide as Hsize; simpl; [done|].
    rewrite Hwss. simpl. symmetry. apply map_size_empty_inv. lia. }
  assert (∀ r1, finish r1 (<[k := v]> w) = set_wss (<[k := v]> w) r1) as Hfinish.
  { intros r1. unfold finish. rewrite bool_decide_eq_true_2; [done|].
    destruct (size (<[k := v]> w)) eqn:Hsize; [|lia].
    apply map_size_empty_inv in Hsize. by apply insert_non_empty in Hsize. }
  destruct (classify a); simplify_eq/=; rewrite Hfinish;
    unfold finish, set_wss; by case_bool_decide.
Qed.

Lemma last_wss_option_wins_witness :
  parseArgs (pfxArgs ++ ["--wss-passphrase"; "other"])
  = ([], Return (set_wss (<["passphrase" := "other"]> (default ∅ (wss pfxParsed)))
                   pfxParsed)).
Proof.
  apply (last_wss_option_wins pfxArgs "--wss-passphrase" "other" "passphrase" pfxParsed).
  - vm_compute. reflexivity.
  - reflexivity.
Defined.

(** ** The text of a port *)

Lemma digit_pretty_N_char m :
  (m < 10)%N → digit (pretty_N_char m) = Some (Z.of_N m).
Proof.
  intros Hm.
  assert (m = 0 ∨ m = 1 ∨ m = 2 ∨ m = 3 ∨ m = 4 ∨ m = 5 ∨ m = 6 ∨ m = 7 ∨ m = 8 ∨ m = 9)%N
    as Hcases by lia.
  repeat (destruct Hcases as [->|Hcases]; [done|]). by subst.
Qed.

Lemma digits_step acc c d s :
  digit c = Some d → digits acc (String c s) = digits (Some (10 * default 0 acc + d)) s.
Proof. intros Hd. cbn [digits]. by rewrite Hd. Qed.

Lemma digits_done n t : startsWithDigit t = false → digits (Some n) t = Some n.
Proof. destruct t as [|c t]; [done|]. cbn [startsWithDigit digits]. by destruct (digit c). Qed.

(** Reading the decimal text of [n] appends the digits of [n] to the
    number read so far. *)
Lemma digits_pretty_N_go n : ∀ acc s,
  (0 < n)%N →
  ∃ k, 0 ≤ k ∧
    digits acc (pretty_N_go n s) = digits (Some (default 0 acc * 10 ^ k + Z.of_N n)) s.
Proof.
  induction (N.lt_wf_0 n) as [n _ IH]; intros acc s Hn.
  rewrite pretty_N_go_step by done.
  pose proof (N.div_mod n 10 ltac:(done)) as Hdm.
  pose proof (N.mod_lt n 10 ltac:(done)) as Hlt.
  destruct (decide (n `div` 10 = 0)%N) as [Hq|Hq].
  - rewrite Hq, pretty_N_go_0, (digits_step _ _ _ _ (digit_pretty_N_char _ Hlt)).
    exists 1. split; [done|]. do 2 f_equal. lia.
  - destruct (IH (n `div` 10)%N ltac:(apply N.div_lt; lia) acc
                (String (pretty_N_char (n `mod` 10)) s) ltac:(lia)) as (k & Hk & ->).
    rewrite (digits_step _ _ _ _ (digit_pretty_N_char _ Hlt)).
    exists (k + 1). split; [lia|]. do 2 f_equal.
    rewrite Z.pow_add_r by lia. simpl default. lia.
Qed.

Lemma pretty_N_go_app n : ∀ s t, pretty_N_go n s +:+ t = pretty_N_go n (s +:+ t).
Proof.
  induction (N.lt_wf_0 n) as [n _ IH]; intros s t.
  destruct (decide (n = 0)%N) as [->|Hn]; [by rewrite !pretty_N_go_0|].
  rewrite (pretty_N_go_step n s), (pretty_N_go_step n (s +:+ t)) by lia.
  rewrite IH; [reflexivity|]. apply N.div_lt; lia.
Qed.

Lemma pretty_N_go_head n : ∀ s,
  (0 < n)%N → ∃ c rest, pretty_N_go n s = String c rest ∧ is_Some (digit c).
Proof.
  induction (N.lt_wf_0 n) as [n _ IH]; intros s Hn.
  rewrite pretty_N_go_step by done.
  destruct (decide (n `div` 10 = 0)%N) as [Hq|Hq].
  - rewrite Hq, pretty_N_go_0. eexists _, _. split; [done|].
    rewrite digit_pretty_N_char; [done|]. by apply N.mod_lt.
  - apply IH; [apply N.div_lt; lia|]. by apply N.neq_0_lt_0.
Qed.

Lemma parseInt_digit_head c rest :
  is_Some (digit c) → parseInt (String c rest) = digits None (String c rest).
Proof.
  destruct c as [[] [] [] [] [] [] [] []]; intros [d Hd];
    vm_compute in Hd; try discriminate Hd; reflexivity.
Qed.

Lemma parseInt_minus s : parseInt (String "-" s) = Z.opp <$> digits None s.
Proof. reflexivity. Qed.

Lemma parseInt_pretty_N n t :
  (0 < n)%N → startsWithDigit t = false →
  parseInt (pretty_N_go n t) = Some (Z.of_N n)
  ∧ digits None (pretty_N_go n t) = Some (Z.of_N n).
Proof.
  intros Hn Ht.
  assert (digits None (pretty_N_go n t) = Some (Z.of_N n)) as Hdigits.
  { destruct (digits_pretty_N_go n None t Hn) as (k & _ & ->). by apply digits_done. }
  split; [|done].
  destruct (pretty_N_go_head n t Hn) as (c & rest & Heq & Hc).
  rewrite Heq in *. by rewrite parseInt_digit_head.
Qed.

(** [parseInt] reads back the decimal text of an integer, negative
    ones too, and does not look at what follows the digits. *)
Lemma parseInt_pretty (z : Z) t :
  startsWithDigit t = false → parseInt (pretty z +:+ t) = Some z.
Proof.
  intros Ht. destruct z as [|p|p].
  - change (pretty 0 +:+ t) with (String "0" t).
    rewrite parseInt_digit_head by done.
    rewrite (digits_step None "0" 0) by done. by apply digits_done.
  - assert (pretty (Z.pos p) = pretty_N_go (N.pos p) "") as -> by done.
    rewrite pretty_N_go_app. by apply parseInt_pretty_N.
  - assert (pretty (Z.neg p) = String "-" (pretty_N_go (N.pos p) "")) as -> by done.
    change (String "-" ?x +:+ t) with (String "-" (x +:+ t)).
    rewrite parseInt_minus, pretty_N_go_app. change ("" +:+ t) with t.
    by destruct (parseInt_pretty_N (N.pos p) t ltac:(done) Ht) as [_ ->].
Qed.

(** The port given in decimal is the port of the server and the port
    that the [start] listener reports.  This holds for every integer
    that a double holds exactly, negative ones too, as the command line
    sets no bounds, and text after the digits is ignored. *)
Theorem port_text_round_trip (z : Z) junk :
  Z.abs z < 2 ^ 53 →
  startsWithDigit junk = false →
  (∀ env, createServerThrows env = None →
          ∃ tr, trace (main ["--port"; pretty z +:+ junk] env)
                = CreateServer z None :: ServerStart :: tr)
  ∧ main ["--port"; pretty z +:+ junk] listeningEnv
    = ([CreateServer z None; ServerStart;
        ConsoleLog ("✓ Reactotron server listening on port " +:+ pretty z)], Return tt).
Proof.
  intros _ Hjunk.
  assert (parseArgs ["--port"; pretty z +:+ junk] = ([], Return (set_port z initial)))
    as Hparse.
  { unfold parseArgs. cbn [parseLoop]. change (classify "--port") with FPort.
    by rewrite (parseInt_pretty z junk Hjunk). }
  split.
  - intros env Henv.
    destruct (main_creates_server ["--port"; pretty z +:+ junk] env
                (set_port z initial)) as (tr & Htr & Hstart).
    { by rewrite Hparse. } { done. }
    destruct (Hstart Henv) as [tr' ->]. by exists tr'.
  - unfold main. erewrite run_accepted; [|by rewrite Hparse|done].
    cbn [createServerThrows listeningEnv]. unfold start.
    cbn [startEmits startThrows later listeningEnv emitAll].
    reflexivity.
Qed.

Lemma port_text_round_trip_witness :
  (∀ env, createServerThrows env = None →
          ∃ tr, trace (main ["--port"; pretty (-1) +:+ "px"] env)
                = CreateServer (-1) None :: ServerStart :: tr)
  ∧ main ["--port"; pretty (-1) +:+ "px"] listeningEnv
    = ([CreateServer (-1) None; ServerStart;
        ConsoleLog ("✓ Reactotron server listening on port " +:+ pretty (-1))], Return tt).
Proof. apply (port_text_round_trip (-1) "px"); reflexivity. Defined.

(** ** The calls on the server *)

Lemma calls_app tr1 tr2 : calls (tr1 ++ tr2) = calls tr1 ++ calls tr2.
Proof. apply List.filter_app. Qed.

Lemma calls_bind {A B} (m : Proc.t A) (k : A → Proc.t B) :
  calls (trace (bind m k))
  = calls (trace m) ++ match outcome m with
                       | Return a => calls (trace (k a))
                       | _ => []
                       end.
Proof. rewrite trace_bind, calls_app. by destruct (outcome m). Qed.

(** The listeners only write on the console. *)
Lemma emit_wired_calls port wss ev : calls (trace (emit (wired port wss) ev)) = [].
Proof.
  rewrite emit_wired. destruct ev as [| | | | |cmd|]; try done.
  - unfold onStart. by destruct wss.
  - unfold onCommand. by case_decide.
Qed.

Lemma emitAll_wired_calls port wss evs : calls (trace (emitAll (wired port wss) evs)) = [].
Proof.
  induction evs as [|ev evs IH]; [done|].
  cbn [emitAll]. rewrite calls_bind, emit_wired_calls.
  by destruct (outcome (emit (wired port wss) ev)).
Qed.

Lemma start_wired_calls env port wss :
  calls (trace (start env (wired port wss))) = [ServerStart].
Proof.
  pose proof (emitAll_wired_calls port wss (startEmits env)) as H.
  unfold start, calls in *.
  destruct (emitAll (wired port wss) (startEmits env)) as [tr [[]| |]];
    destruct (startThrows env); simpl in *;
    rewrite ?app_nil_r, ?List.filter_app, ?H; done.
Qed.

Lemma shutdown_wired_calls port wss stopEmits :
  calls (trace (shutdown (wired port wss) stopEmits)) = [ServerStop].
Proof.
  pose proof (emitAll_wired_calls port wss stopEmits) as H.
  unfold shutdown, stop, calls in *.
  destruct (emitAll (wired port wss) stopEmits) as [tr [[]| |]]; simpl in *;
    rewrite ?app_nil_r, ?List.filter_app, ?H; done.
Qed.

(** A signal handler never returns: the process ends in it. *)
Lemma shutdown_wired_exits port wss stopEmits :
  ∃ code, outcome (shutdown (wired port wss) stopEmits) = Exit code.
Proof.
  pose proof (shutdown_wired port wss stopEmits) as H.
  destruct (firstUnavailable stopEmits); destruct H as [-> _]; by eexists.
Qed.

Lemma eventLoop_wired_calls port wss pes :
  calls (trace (eventLoop (runtime port wss) pes)) `prefix_of` [ServerStop].
Proof.
  induction pes as [|[ev|sig stopEmits] pes IH]; [by apply prefix_nil| |].
  - cbn [eventLoop react]. change (server (runtime port wss)) with (wired port wss).
    rewrite calls_bind, emit_wired_calls.
    destruct (outcome (emit (wired port wss) ev)); [done|by apply prefix_nil..].
  - cbn [eventLoop]. rewrite react_signal, calls_bind, shutdown_wired_calls.
    destruct (shutdown_wired_exits port wss stopEmits) as [code ->]. done.
Qed.

(** Whatever the command line and the environment, the process
    creates the server at most once, starts it at most once and only
    after creating it, and stops it at most once and only after
    starting it. *)
Theorem server_calls_in_order args env :
  ∃ port wss, calls (trace (main args env))
              `prefix_of` [CreateServer port wss; ServerStart; ServerStop].
Proof.
  destruct (parseArgs_cases args) as [[msg Hp]|(r0 & w & Hp & _)].
  { exists 0, None. rewrite (main_rejected args msg env Hp). by apply prefix_nil. }
  remember (if bool_decide (0 < size w)%nat then set_wss w r0 else r0) as r.
  exists (port r), (wss r). unfold main.
  destruct (help r) eqn:Hhelp.
  { erewrite run_help; [|by rewrite Hp|done]. by apply prefix_nil. }
  erewrite run_accepted; [|by rewrite Hp|done].
  destruct (createServerThrows env) as [error|].
  { by exists [ServerStart; ServerStop]. }
  pose proof (start_wired_calls env (port r) (wss r)) as Hstart.
  pose proof (eventLoop_wired_calls (port r) (wss r) (later env)) as Hloop.
  destruct (start env (wired (port r) (wss r))) as [tr [[]|code|error]];
    simpl in Hstart; simpl.
  - destruct (eventLoop (runtime (port r) (wss r)) (later env)) as [tr' o'].
    simpl in *. rewrite app_nil_r, calls_app, Hstart.
    apply prefix_cons, (prefix_cons ServerStart), Hloop.
  - rewrite Hstart. by exists [ServerStop].
  - rewrite calls_app, Hstart. by exists [ServerStop].
Qed.

(** ** Ending with code 0 *)

Lemma eventLoop_wired_exit_zero port wss pes :
  firstUnavailable (delivered pes) = None →
  outcome (eventLoop (runtime port wss) pes) = Exit 0
  ↔ ∃ sig stopEmits, Signalled sig stopEmits ∈ pes.
Proof.
  induction pes as [|[ev|sig stopEmits] pes IH]; intros Hnone.
  - split; [done|]. intros (? & ? & H). by apply elem_of_nil in H.
  - cbn [delivered] in Hnone.
    destruct (unavailable_or_not ev) as [[p ->]|Hev]; [done|].
    rewrite firstUnavailable_skip in Hnone by done.
    cbn [eventLoop react]. change (server (runtime port wss)) with (wired port wss).
    destruct (Silent_bind _ (λ _, eventLoop (runtime port wss) pes)
                (emit_wired_silent port wss ev Hev)) as [-> _].
    rewrite (IH Hnone). split; intros (sig & stopEmits & Hin).
    + exists sig, stopEmits. by right.
    + apply elem_of_cons in Hin as [?|Hin]; [done|]. eauto.
  - cbn [delivered] in Hnone. cbn [eventLoop]. rewrite react_signal, outcome_bind.
    pose proof (shutdown_wired port wss stopEmits) as H. rewrite Hnone in H.
    destruct H as [-> _]. split; [|done]. intros _. exists sig, stopEmits. left.
Qed.

Lemma main_running args env r :
  outcome (parseArgs args) = Return r → help r = false →
  startupFailure env = None →
  outcome (main args env) = outcome (eventLoop (runtime (port r) (wss r)) (later env))
  ∧ firstUnavailable (delivered (later env)) = None.
Proof.
  intros Hparse Hhelp Hnone. unfold main, startupFailure in *.
  rewrite (run_accepted args env r Hparse Hhelp).
  destruct (createServerThrows env); [done|].
  pose proof (start_wired env (port r) (wss r)) as Hstart.
  destruct (firstUnavailable (startEmits env)); [done|].
  destruct Hstart as [_ Ho].
  destruct (startThrows env); [done|].
  destruct (firstUnavailable (delivered (later env))); [done|].
  split; [|done].
  destruct (start env (wired (port r) (wss r))) as [tr o]. simpl in Ho. subst o. simpl.
  by destruct (eventLoop _ (later env)).
Qed.

(** The process ends with code 0 in two situations and in no other:
    the command line is accepted and asks for help; or the command
    line is accepted, nothing fails, and SIGINT or SIGTERM arrives. *)
Theorem exit_zero_iff args env :
  outcome (main args env) = Exit 0
  ↔ failure args env = None
    ∧ ((∃ r, outcome (parseArgs args) = Return r ∧ help r = true)
       ∨ (∃ sig stopEmits, Signalled sig stopEmits ∈ later env)).
Proof.
  unfold failure.
  destruct (parseArgs_cases args) as [[msg Hp]|(r0 & w & Hp & _)].
  { rewrite Hp, (main_rejected args msg env Hp). split; [done|]. by intros [[=] _]. }
  remember (if bool_decide (0 < size w)%nat then set_wss w r0 else r0) as r.
  rewrite Hp. destruct (help r) eqn:Hhelp.
  { unfold main. erewrite run_help; [|by rewrite Hp|done].
    split; [|done]. intros _. split; [done|]. left. by exists r. }
  assert (outcome (parseArgs args) = Return r) as Hparse by by rewrite Hp.
  pose proof (main_started args env r Hparse Hhelp) as Hstarted.
  destruct (startupFailure env) as [f|] eqn:Hfail.
  { destruct Hstarted as [-> _]. split; [done|]. by intros [[=] _]. }
  destruct (main_running args env r Hparse Hhelp Hfail) as [-> Hnone].
  rewrite (eventLoop_wired_exit_zero _ _ _ Hnone). split.
  - intros Hsig. split; [done|]. by right.
  - intros [_ [(r' & [= <-] & Hr')|Hsig]]; [congruence|done].
Qed.

(** ** What the [start] listener says about TLS *)

Lemma run_returns args env rt :
  outcome (run args env) = Return rt →
  ∃ r, outcome (parseArgs args) = Return r ∧ help r = false
       ∧ rt = runtime (port r) (wss r).
Proof.
  intros Hrun.
  destruct (parseArgs_cases args) as [[msg Hp]|(r0 & w & Hp & _)].
  { by rewrite (run_rejected _ _ Hp) in Hrun. }
  remember (if bool_decide (0 < size w)%nat then set_wss w r0 else r0) as r.
  exists r. split; [by rewrite Hp|].
  destruct (help r) eqn:Hhelp.
  { erewrite run_help in Hrun; [done|by rewrite Hp|done]. }
  split; [done|].
  erewrite run_accepted in Hrun; [|by rewrite Hp|done].
  destruct (createServerThrows env); [done|].
  rewrite !outcome_bind in Hrun. simpl in Hrun.
  destruct (outcome (start env _)) as [[]| |]; try done. by injection Hrun.
Qed.

(** When the server reports that it listens, the process writes
    [TLS/WSS enabled] exactly when some [--wss-*] option was read,
    whichever it is. *)
Theorem tls_enabled_logged_iff args env rt :
  outcome (run args env) = Return rt →
  ConsoleLog "✓ TLS/WSS enabled" ∈ trace (emit (server rt) Start)
  ↔ ∃ a, a ∈ flagTokens args ∧ is_Some (fieldOf (classify a)).
Proof.
  intros (r & Hparse & _ & ->)%run_returns.
  change (server (runtime (port r) (wss r))) with (wired (port r) (wss r)).
  rewrite emit_wired. unfold onStart.
  pose proof (parseArgs_wss args r Hparse) as Hwss.
  assert ((∃ a, a ∈ flagTokens args ∧ is_Some (fieldOf (classify a)))
          ↔ fieldsOf args ≠ ∅) as ->.
  { unfold fieldsOf. split.
    - intros (a & Ha & [k Hk]) Hempty.
      assert (k ∈ (∅ : gset string)) as Hin; [|by apply not_elem_of_empty in Hin].
      rewrite <-Hempty. apply elem_of_list_to_set, list_elem_of_omap. eauto.
    - intros Hne. apply set_choose_L in Hne as [k Hk].
      apply elem_of_list_to_set, list_elem_of_omap in Hk as (a & Ha & Hk). eauto. }
  destruct (wss r) as [w|]; simpl.
  - destruct Hwss as [Hne Hdom]. split.
    + intros _ Hempty. apply Hne. apply dom_empty_iff_L. by rewrite Hdom.
    + intros _. right. left.
  - split; [|done]. intros Hin. apply elem_of_cons in Hin as [Heq|Hin].
    + by injection Heq.
    + by apply elem_of_nil in Hin.
Qed.

Lemma tls_enabled_logged_iff_witness :
  ConsoleLog "✓ TLS/WSS enabled" ∈ trace (emit (server (runtime 9090 (wss pfxParsed))) Start)
  ↔ ∃ a, a ∈ flagTokens pfxArgs ∧ is_Some (fieldOf (classify a)).
Proof.
  apply (tls_enabled_logged_iff pfxArgs quiet (runtime 9090 (wss pfxParsed))).
  vm_compute. reflexivity.
Defined.

(** ** The usage text *)

(** Every option that [parseArgs] knows, in each of its spellings, is
    in the text that [printHelp] prints. *)
Theorem usage_lists_every_option arg :
  classify arg ≠ FUnknown → ∃ pre post, usage = pre +:+ arg +:+ post.
Proof.
  intros Hknown. apply PanelSpec.indexOf_spec.
  unfold classify in Hknown.
  repeat case_decide; try done; subst arg; vm_compute; reflexivity.
Qed.

Lemma usage_lists_every_option_witness :
  ∃ pre post, usage = pre +:+ "--wss-passphrase" +:+ post.
Proof. apply (usage_lists_every_option "--wss-passphrase"). discriminate. Defined.

End CliExtra.

(** * Further properties of the custom-command panel *)

Module PanelExtra.
Import CustomCommands PanelSpec.

(** ** Sequences of edits *)

(** Dispatching a sequence of [UPDATE_ARG] actions never throws on a
    state that holds an argument map; it ends in a state whose map is
    the first one with the edits written over it in order, an edit of
    the name [__proto__] writing nothing, and every object that the
    heap held before, the earlier states among them, is still there
    unchanged. *)
Theorem edits_compose (h : heap) state m (edits : list (string * string)) :
  h !! state = Some m →
  ∃ h' state',
    dispatchAll h state (uncurry UPDATE_ARG <$> edits) = Some (h', state')
    ∧ h' !! state' = Some (edited m edits)
    ∧ h ⊆ h'.
Proof. apply dispatchAll_edited. Qed.

Lemma edits_compose_witness :
  ∃ h' state',
    dispatchAll {[ 0%nat := {[ "a" := "" ]} ]} 0%nat
      (uncurry UPDATE_ARG <$> [("a", "x"); ("__proto__", "y"); ("a", "xy")])
    = Some (h', state')
    ∧ h' !! state'
      = Some (edited {[ "a" := "" ]} [("a", "x"); ("__proto__", "y"); ("a", "xy")])
    ∧ ({[ 0%nat := {[ "a" := "" ]} ]} : heap) ⊆ h'.
Proof.
  apply (edits_compose {[ 0%nat := {[ "a" := "" ]} ]} 0%nat {[ "a" := "" ]}
           [("a", "x"); ("__proto__", "y"); ("a", "xy")]).
  reflexivity.
Defined.

(** ** What the inputs show *)

Section Commands.
Context {Id : Type}.

(** After mounting an item and any edits, the item shows one input
    for each declared argument, in the order of declaration.  The
    input of an argument of any name but [__proto__] holds a text: the
    text last typed for the name, or the empty text if none was typed.
    The input of an argument named [__proto__] holds what the
    prototype has under this name, whatever was typed.  A command
    without arguments shows no inputs. *)
Theorem inputs_show_typed_text (h : heap) (cc : CustomCommand Id)
    (edits : list (string * string)) :
  ∃ h' state' o,
    dispatchAll (mount h cc).1 (mount h cc).2 (uncurry UPDATE_ARG <$> edits)
    = Some (h', state')
    ∧ h' !! state' = Some o
    ∧ argInputs (renderItem cc o)
      = if decide (declared cc = []) then None
        else Some ((λ n, (n, if decide (n = "__proto__") then Inherited n
                             else Text (typed edits n))) <$> declared cc).
Proof.
  destruct (dispatchAll_edited edits (mount h cc).1 (mount h cc).2
              (initArgMap (args cc)) (alloc_lookup _ _))
    as (h' & state' & Hall & Hlookup & _).
  exists h', state', (edited (initArgMap (args cc)) edits).
  split; [done|]. split; [done|].
  assert (∀ n, n ∈ declared cc →
               getProp (edited (initArgMap (args cc)) edits) n
               = if decide (n = "__proto__") then Inherited n
                 else Text (typed edits n)) as Hshown.
  { intros n Hn. unfold getProp. case_decide as Hproto.
    - subst n. rewrite edited_lookup_proto, initArgMap_lookup.
      rewrite decide_False; [done|]. by intros [? _].
    - rewrite (edited_lookup_typed edits _ n Hproto); [done|].
      rewrite initArgMap_lookup. by rewrite decide_True. }
  unfold renderItem, declared in *. simpl.
  destruct (args cc) as [l|]; simpl in *; [|done].
  destruct l as [|a l]; [done|].
  rewrite bool_decide_eq_true_2 by (simpl; lia).
  rewrite decide_False by done. f_equal.
  rewrite <-list_fmap_compose. apply list_fmap_ext.
  intros i arg Harg. simpl. f_equal. apply Hshown.
  apply list_elem_of_fmap. exists arg. split; [done|]. by eapply list_elem_of_lookup_2.
Qed.

(** ** The search *)

Lemma toLowerCase_empty s : toLowerCase s = "" ↔ s = "".
Proof. by destruct s. Qed.

(** The letter case of the search text does not matter. *)
Theorem search_ignores_case s1 s2 (customCommands : list (CustomCommand Id)) :
  toLowerCase s1 = toLowerCase s2 →
  filteredCustomCommands s1 customCommands = filteredCustomCommands s2 customCommands.
Proof.
  intros Hlower. unfold filteredCustomCommands. rewrite Hlower.
  assert (s1 = "" ↔ s2 = "") as Hempty.
  { by rewrite <-(toLowerCase_empty s1), <-(toLowerCase_empty s2), Hlower. }
  repeat case_decide; try done; tauto.
Qed.

Lemma indexOf_longer hay s t : indexOf hay (s +:+ t) > -1 → indexOf hay s > -1.
Proof.
  rewrite !indexOf_spec. intros (pre & post & ->).
  exists pre, (t +:+ post). by rewrite string_app_assoc.
Qed.

Lemma filter_sublist {A} (f : A → bool) l : List.filter f l `sublist_of` l.
Proof.
  induction l as [|x l IH]; [constructor|]. cbn [List.filter].
  destruct (f x); by constructor.
Qed.

Lemma filter_sublist_filter {A} (f g : A → bool) l :
  (∀ x, f x = true → g x = true) → List.filter f l `sublist_of` List.filter g l.
Proof.
  intros Hfg. induction l as [|x l IH]; [constructor|]. cbn [List.filter].
  destruct (f x) eqn:Hf.
  - rewrite (Hfg x Hf). by constructor.
  - destruct (g x); [by constructor|done].
Qed.

(** For search texts and commands whose texts are ASCII, typing more
    into the search never brings commands back: the list for a longer
    search text is a subsequence of the list for the text it extends. *)
Theorem longer_search_narrows s t (customCommands : list (CustomCommand Id)) :
  isAscii (s +:+ t) = true →
  Forall (λ cc, asciiTexts cc = true) customCommands →
  filteredCustomCommands (s +:+ t) customCommands
  `sublist_of` filteredCustomCommands s customCommands.
Proof.
  intros _ _. unfold filteredCustomCommands.
  destruct (decide (s ≠ "")) as [Hs|Hs].
  - rewrite decide_True by by destruct s.
    apply filter_sublist_filter. intros cc. rewrite toLowerCase_app.
    rewrite !orb_true_iff, !bool_decide_eq_true.
    intros [[H|H]|H]; apply indexOf_longer in H; tauto.
  - case_decide; [apply filter_sublist|done].
Qed.

End Commands.

Lemma search_ignores_case_witness :
  filteredCustomCommands "RESET" [resetOfPhone; resetOfTablet]
  = filteredCustomCommands "reset" [resetOfPhone; resetOfTablet].
Proof. apply (search_ignores_case "RESET" "reset"). reflexivity. Defined.

Lemma longer_search_narrows_witness :
  filteredCustomCommands ("res" +:+ "ets") [resetOfPhone; resetOfTablet]
  `sublist_of` filteredCustomCommands "res" [resetOfPhone; resetOfTablet].
Proof.
  apply (longer_search_narrows "res" "ets" [resetOfPhone; resetOfTablet]).
  - reflexivity.
  - repeat constructor.
Defined.

(** ** The keys of the rendered list *)

(** When the identifiers have texts without [-], different for
    different identifiers, and no two commands of the list have the
    same [clientId] and the same [id], no two rendered items have the
    same key, whatever the search. *)
Theorem rendered_keys_unique {Id} (idText : Id → string) search
    (customCommands : list (CustomCommand Id)) :
  Forall (λ cc, occurs "-" (idText (id cc)) = false) customCommands →
  (∀ i j, idText i = idText j → i = j) →
  NoDup ((λ cc, (clientId cc, id cc)) <$> customCommands) →
  NoDup (renderedKeys idText search customCommands).
Proof. apply rendered_keys_NoDup. Qed.

Lemma rendered_keys_unique_witness :
  NoDup (renderedKeys pretty "reset" [resetOfPhone; resetOfTablet]).
Proof.
  apply (rendered_keys_unique pretty "reset" [resetOfPhone; resetOfTablet]).
  - repeat constructor.
  - intros i j. apply (inj pretty).
  - apply (bool_decide_unpack _). vm_compute. exact I.
Defined.

End PanelExtra.
